(** * Scan state store of sql-repo-scanner

    A shallow embedding of [sql_repo_scanner/agent.py]: the tool functions
    that seed, update, query and export the per-file scan state kept in
    [tool_context.state], and the properties of that store. *)

From Stdlib Require Import NArith String Ascii List Lia.
From Stdlib.Strings Require Import Byte.
From Stdlib Require DecimalString.
From stdpp Require Import gmap strings list fin_maps.

Open Scope N_scope.
Open Scope list_scope.

(** ** Python values *)

(** A Python [str] is a sequence of code points. *)
Abbreviation pystr := (list N).

(** [py "text"] is the [str] written as the ASCII literal ["text"]. *)
Definition py (s : string) : pystr :=
  map N_of_ascii (list_ascii_of_string s).

(** The value of one entry of [repository_analysis]: a dict that the code
    only ever builds and reads through the keys ['sql_statements'] and
    ['scanned'].  A field is [None] when the key is absent from the dict. *)
Record details := Details {
  sql_statements : option (list pystr);
  scanned : option bool
}.

#[global] Instance details_eq_dec : EqDecision details.
Proof. solve_decision. Defined.

(** [d['sql_statements'] = l] and [d['scanned'] = b] on an existing dict. *)
Definition set_sql_statements (l : list pystr) (d : details) : details :=
  {| sql_statements := Some l; scanned := scanned d |}.

Definition set_scanned (b : bool) (d : details) : details :=
  {| sql_statements := sql_statements d; scanned := Some b |}.

(** [tool_context.state]: the session dict, restricted to the keys the
    module uses.  [None] is an absent key. *)
Record State := mkState {
  repo_url : option pystr;
  repo_owner : option pystr;
  repo_name : option pystr;
  repo_path : option pystr;
  repository_analysis : option (gmap pystr details)
}.

(** [tool_context.state['repository_analysis'] = ra] *)
Definition with_analysis (st : State) (ra : gmap pystr details) : State :=
  {| repo_url := repo_url st; repo_owner := repo_owner st;
     repo_name := repo_name st; repo_path := repo_path st;
     repository_analysis := Some ra |}.

(** The dict every tool returns: ["status"] and ["message"] are always
    present, the other keys only on some paths. *)
Inductive Status := success | failure.

Record response := Response {
  status : Status;
  message : pystr;
  all_files_scanned : option bool;
  files : option (list pystr);
  directory_path : option pystr;
  content : option pystr;
  output_file_path : option pystr
}.

Definition reply (s : Status) (m : pystr) : response :=
  {| status := s; message := m; all_files_scanned := None; files := None;
     directory_path := None; content := None; output_file_path := None |}.

(** ** Store writers *)

Definition save_sql_statements (relative_file_path : pystr)
    (statements : list pystr) (st : State) : State * response :=
  match repository_analysis st with
  | None =>
      (st, reply failure (py "Error: 'repository_analysis' not found in tool_context.state. Cannot save SQL statement."))
  | Some ra =>
      let ra :=
        match ra !! relative_file_path with
        | None =>
            <[relative_file_path :=
                {| sql_statements := Some []; scanned := Some false |}]> ra
        | Some _ => ra
        end in
      let ra := alter (set_sql_statements statements) relative_file_path ra in
      let ra := alter (set_scanned true) relative_file_path ra in
      (with_analysis st ra, reply success (py "statement saved"))
  end.

Definition mark_file_as_scanned (relative_file_path : pystr) (st : State)
    : State * response :=
  match repository_analysis st with
  | None =>
      (st, reply failure (py "Error: 'repository_analysis' not found in tool_context.state. Cannot save mark file as scanned."))
  | Some ra =>
      let ra :=
        match ra !! relative_file_path with
        | None =>
            <[relative_file_path :=
                {| sql_statements := Some []; scanned := Some true |}]> ra
        | Some _ => ra
        end in
      let ra := alter (set_scanned true) relative_file_path ra in
      (with_analysis st ra,
       reply success (relative_file_path ++ py " marked as scanned."))
  end.

(** ** Completion check *)

(** [details.get('scanned', False)] *)
Definition get_scanned (d : details) : bool := default false (scanned d).

(** The loop over [repository_analysis.items()]: the first entry that is
    not scanned ends it. *)
Fixpoint first_unscanned (items : list (pystr * details)) : option pystr :=
  match items with
  | [] => None
  | (file_path, d) :: rest =>
      if negb (get_scanned d) then Some file_path else first_unscanned rest
  end.

Definition answer (m : pystr) (b : bool) (s : Status) : response :=
  {| status := s; message := m; all_files_scanned := Some b; files := None;
     directory_path := None; content := None; output_file_path := None |}.

Definition are_all_files_scanned (st : State) : response :=
  match repository_analysis st with
  | None =>
      answer (py "Error: 'repository_analysis' not found in tool_context.state. Cannot determine if all files were scanned.") false failure
  | Some ra =>
      if decide (ra = ∅) then answer (py "No files to scan.") true success
      else
        match first_unscanned (map_to_list ra) with
        | Some _ => answer (py "Not all files have been scanned.") false success
        | None => answer (py "All files have been scanned.") true success
        end
  end.

(** ** The file system *)

(** What a path resolves to: a regular file with its bytes, or a directory
    with its entries in the order [os.scandir] lists them.  Links, devices
    and the like are left out. *)
#[local] Unset Elimination Schemes.
Inductive node :=
  | File (data : list byte)
  | Dir (entries : list (pystr * node)).
#[local] Set Elimination Schemes.

(** [os.sep] *)
Definition SEP : N := 47.

Definition GIT : pystr := py ".git".

(** The names [os.walk] puts in [files] for one directory. *)
Fixpoint filenames (entries : list (pystr * node)) : list pystr :=
  match entries with
  | [] => []
  | (name, File _) :: rest => name :: filenames rest
  | (name, Dir _) :: rest => filenames rest
  end.


(** Path components joined with [os.sep]. *)
Fixpoint join_sep (parts : list pystr) : pystr :=
  match parts with
  | [] => []
  | p :: rest =>
      match rest with
      | [] => p
      | _ :: _ => p ++ SEP :: join_sep rest
      end
  end.

(** [os.path.relpath(os.path.join(root, file), local_repo_path)], where
    [root] is [local_repo_path] followed by the directory names [rel]. *)
Definition relative_path (rel : list pystr) (file : pystr) : pystr :=
  join_sep (rel ++ [file]).

Section descend.
Context {A : Type} (visit : pystr → node → list A).

(** [os.walk] going down into the sub-directories left in [dirnames],
    in order.  The loop body has removed the first ['.git'] from that
    list ([dirnames.remove('.git')]); [pruned] tells that it is gone. *)
Fixpoint descend (entries : list (pystr * node)) (pruned : bool) : list A :=
  match entries with
  | [] => []
  | (name, child) :: rest =>
      match child with
      | File _ => descend rest pruned
      | Dir _ =>
          if bool_decide (name = GIT) && negb pruned then descend rest true
          else visit name child ++ descend rest pruned
      end
  end.
End descend.

(** [for root, dirnames, files in os.walk(local_repo_path)] with the body
    of the loop: the relative paths in the order they are appended to
    [files_to_scan]. *)
Fixpoint walk_files (rel : list pystr) (n : node) : list pystr :=
  match n with
  | File _ => []
  | Dir entries =>
      map (relative_path rel) (filenames entries) ++
      descend (fun name child => walk_files (rel ++ [name]) child) entries false
  end.

(** A call either returns or lets an exception escape. *)
Inductive outcome (A : Type) :=
  | Returns (a : A)
  | Raises (exception : pystr).
Arguments Returns {A} a.
Arguments Raises {A} exception.

(** [str(n)] for a length. *)
Definition str_of_nat (n : nat) : pystr :=
  py (DecimalString.NilZero.string_of_uint (Nat.to_uint n)).

Definition unscanned : details :=
  {| sql_statements := Some []; scanned := Some false |}.

(** [fs] resolves a path of the host to what is there, if anything.  With
    no ['repo_path'] in the state, [os.path.exists(None)] raises. *)
Definition list_repo_files (fs : pystr → option node) (st : State)
    : outcome (State * response) :=
  match repo_path st with
  | None => Raises (py "TypeError")
  | Some local_repo_path =>
      match fs local_repo_path with
      | None =>
          Returns (st, reply failure
                         (py "Error: Path does not exist: " ++ local_repo_path))
      | Some (File _) =>
          Returns (st, reply failure
                         (py "Error: Path is not a directory: " ++ local_repo_path))
      | Some (Dir entries) =>
          let ra := default ∅ (repository_analysis st) in
          let files_to_scan := walk_files [] (Dir entries) in
          let ra := foldl (fun ra relative_path => <[relative_path := unscanned]> ra)
                          ra files_to_scan in
          Returns (with_analysis st ra,
                   {| status := success;
                      message := py "Fount " ++ str_of_nat (length files_to_scan)
                                 ++ py " files to scan. File list stored in agent context.";
                      all_files_scanned := None;
                      files := Some files_to_scan;
                      directory_path := None; content := None;
                      output_file_path := None |})
      end
  end.

(** ** Reading a file *)

(** [os.path.join(a, b)] of [posixpath]. *)
Definition path_join (a b : pystr) : pystr :=
  match b with
  | c :: _ => if c =? SEP then b
              else match last a with
                   | None => b
                   | Some e => if e =? SEP then a ++ b else a ++ SEP :: b
                   end
  | [] => match last a with
          | None => []
          | Some e => if e =? SEP then a else a ++ [SEP]
          end
  end.

(** [IS_CONTINUATION_BYTE] of the UTF-8 decoder. *)
Definition is_continuation (ch : N) : bool := (0x80 <=? ch) && (ch <? 0xC0).

(** The UTF-8 decoder behind [open(..., encoding='utf-8', errors='ignore')]:
    at a malformed sequence the handler skips the bytes the decoder
    reports (the lead byte alone, or the lead and the continuation bytes
    accepted so far, or everything left when the data ends inside a
    sequence) and decoding goes on after them. *)
Fixpoint utf8_decode_ignore (s : list byte) : pystr :=
  match s with
  | [] => []
  | b0 :: s1 =>
      let ch := Byte.to_N b0 in
      if ch <? 0x80 then ch :: utf8_decode_ignore s1
      else if ch <? 0xE0 then
        if ch <? 0xC2 then utf8_decode_ignore s1
        else
          match s1 with
          | [] => []
          | b1 :: s2 =>
              let ch2 := Byte.to_N b1 in
              if negb (is_continuation ch2) then utf8_decode_ignore s1
              else (N.shiftl ch 6 + ch2 - (N.shiftl 0xC0 6 + 0x80))
                   :: utf8_decode_ignore s2
          end
      else if ch <? 0xF0 then
        match s1 with
        | [] => []
        | b1 :: s2 =>
            let ch2 := Byte.to_N b1 in
            if negb (is_continuation ch2)
               || (if ch2 <? 0xA0 then ch =? 0xE0 else ch =? 0xED)
            then utf8_decode_ignore s1
            else
              match s2 with
              | [] => []
              | b2 :: s3 =>
                  let ch3 := Byte.to_N b2 in
                  if negb (is_continuation ch3) then utf8_decode_ignore s2
                  else (N.shiftl ch 12 + N.shiftl ch2 6 + ch3
                        - (N.shiftl 0xE0 12 + N.shiftl 0x80 6 + 0x80))
                       :: utf8_decode_ignore s3
              end
        end
      else if ch <? 0xF5 then
        match s1 with
        | [] => []
        | b1 :: s2 =>
            let ch2 := Byte.to_N b1 in
            if negb (is_continuation ch2)
               || (if ch2 <? 0x90 then ch =? 0xF0 else ch =? 0xF4)
            then utf8_decode_ignore s1
            else
              match s2 with
              | [] => []
              | b2 :: s3 =>
                  let ch3 := Byte.to_N b2 in
                  if negb (is_continuation ch3) then utf8_decode_ignore s2
                  else
                    match s3 with
                    | [] => []
                    | b3 :: s4 =>
                        let ch4 := Byte.to_N b3 in
                        if negb (is_continuation ch4) then utf8_decode_ignore s3
                        else (N.shiftl ch 18 + N.shiftl ch2 12 + N.shiftl ch3 6 + ch4
                              - (N.shiftl 0xF0 18 + N.shiftl 0x80 12
                                 + N.shiftl 0x80 6 + 0x80))
                             :: utf8_decode_ignore s4
                    end
              end
        end
      else utf8_decode_ignore s1
  end.

(** Text mode with the default [newline=None]: ["\r\n"] and ["\r"] are read
    as ["\n"]. *)
Fixpoint universal_newlines (s : pystr) : pystr :=
  match s with
  | [] => []
  | c :: rest =>
      if c =? 13 then
        10 :: match rest with
              | [] => []
              | c2 :: rest2 =>
                  if c2 =? 10 then universal_newlines rest2
                  else universal_newlines rest
              end
      else c :: universal_newlines rest
  end.

(** [f.read()] on the file opened in text mode. *)
Definition read_text (data : list byte) : pystr :=
  universal_newlines (utf8_decode_ignore data).

Definition get_file_content (fs : pystr → option node)
    (relative_file_path : pystr) (st : State) : response :=
  match repo_path st with
  | None | Some [] =>
      reply failure (py "Error: 'repo_path' not found in tool_context.state. Cannot resolve relative path.")
  | Some local_repo_path =>
      let absolute_file_path := path_join local_repo_path relative_file_path in
      match fs absolute_file_path with
      | None =>
          reply failure (py "Error: File does not exist: " ++ absolute_file_path)
      | Some (Dir _) =>
          reply failure (py "Error: Path is not a file: " ++ absolute_file_path)
      | Some (File data) =>
          {| status := success;
             message := py "Successfully read file content.";
             all_files_scanned := None; files := None; directory_path := None;
             content := Some (read_text data);
             output_file_path := None |}
      end
  end.

(** ** JSON text *)

(** The values [json.dump] meets in a record of the report. *)
Inductive value :=
  | VStr (s : pystr)
  | VBool (b : bool)
  | VList (items : list pystr).

(** One digit of ['{0:04x}'.format(n)]. *)
Definition hexdigit (d : N) : N := if d <? 10 then 48 + d else 87 + d.

Definition hex4 (n : N) : pystr :=
  [hexdigit (n / 4096 mod 16); hexdigit (n / 256 mod 16);
   hexdigit (n / 16 mod 16); hexdigit (n mod 16)].

(** ['\\u{0:04x}'.format(n)] *)
Definition escape_u (n : N) : pystr := 92 :: 117 :: hex4 n.

(** What [encode_basestring_ascii] writes for one code point: printable
    ASCII as it is, the quote, the backslash and the control characters
    with a short name escaped by name, every other code point as
    [\uXXXX], above the basic plane as a surrogate pair. *)
Definition encode_char (c : N) : pystr :=
  if c =? 34 then [92; 34]
  else if c =? 92 then [92; 92]
  else if c =? 10 then [92; 110]
  else if c =? 13 then [92; 114]
  else if c =? 9 then [92; 116]
  else if c =? 8 then [92; 98]
  else if c =? 12 then [92; 102]
  else if (32 <=? c) && (c <=? 126) then [c]
  else if c <? 0x10000 then escape_u c
  else
    let n := c - 0x10000 in
    let s1 := N.lor 0xd800 (N.land (N.shiftr n 10) 0x3ff) in
    let s2 := N.lor 0xdc00 (N.land n 0x3ff) in
    escape_u s1 ++ escape_u s2.

Definition encode_basestring_ascii (s : pystr) : pystr :=
  34 :: flat_map encode_char s ++ [34].

(** [', '.join(chunks)] *)
Fixpoint join_comma (chunks : list pystr) : pystr :=
  match chunks with
  | [] => []
  | c :: rest =>
      match rest with
      | [] => c
      | _ :: _ => c ++ py ", " ++ join_comma rest
      end
  end.

Definition dumps_value (v : value) : pystr :=
  match v with
  | VStr s => encode_basestring_ascii s
  | VBool true => py "true"
  | VBool false => py "false"
  | VList items => py "[" ++ join_comma (map encode_basestring_ascii items) ++ py "]"
  end.

(** [json.dump] of a dict, keys in insertion order, with the default
    separators and [ensure_ascii]. *)
Definition json_dumps (record : list (pystr * value)) : pystr :=
  py "{"
  ++ join_comma (map (fun '(key, v) =>
                        encode_basestring_ascii key ++ py ": " ++ dumps_value v)
                     record)
  ++ py "}".

(** ** Export *)

(** The items of an entry, in the order the code inserts the keys. *)
Definition items (d : details) : list (pystr * value) :=
  match sql_statements d with
  | Some l => [(py "sql_statements", VList l)]
  | None => []
  end ++
  match scanned d with
  | Some b => [(py "scanned", VBool b)]
  | None => []
  end.

(** [{"file_path": file_path, **details}] *)
Definition record_of (file_path : pystr) (d : details) : list (pystr * value) :=
  (py "file_path", VStr file_path) :: items d.

(** What the loop writes to the opened file. *)
Definition jsonl (ra : gmap pystr details) : pystr :=
  flat_map (fun '(file_path, d) => json_dumps (record_of file_path d) ++ [10])
           (map_to_list ra).

(** [cwd] is [os.getcwd()]; [denied path] is the text of the [IOError] that
    opening [path] for writing raises, if it does.  The second component
    is the content of the file the call leaves at [output_file_path]. *)
Definition generate_repository_analysis_jsonl (cwd : pystr)
    (denied : pystr → option pystr) (st : State) : response * option pystr :=
  match repo_name st with
  | None | Some [] =>
      (reply failure (py "Error: 'repo_name' not found in tool_context.state. Cannot name the output file."), None)
  | Some name =>
      match repository_analysis st with
      | None =>
          (reply failure (py "Error: 'repository_analysis' not found in tool_context.state. Cannot generate report."), None)
      | Some ra =>
          let output_file_name := name ++ py "_analysis.jsonl" in
          let output_file_path := path_join cwd output_file_name in
          match denied output_file_path with
          | Some e =>
              (reply failure (py "IOError generating JSONL file " ++ output_file_path
                              ++ py ": " ++ e), None)
          | None =>
              ({| status := success;
                  message := py "Successfully generated repository analysis JSONL file: "
                             ++ output_file_path;
                  all_files_scanned := None; files := None;
                  directory_path := None; content := None;
                  output_file_path := Some output_file_path |},
               Some (jsonl ra))
          end
      end
  end.

(** ** Reading the report back *)

(** The lines of a text, as iterating over the file gives them, without
    their terminator. *)
Fixpoint lines (text : pystr) : list pystr :=
  match text with
  | [] => []
  | c :: rest =>
      if c =? 10 then [] :: lines rest
      else match lines rest with
           | [] => [[c]]
           | l :: ls => (c :: l) :: ls
           end
  end.

Definition unhex (c : N) : option N :=
  if (48 <=? c) && (c <=? 57) then Some (c - 48)
  else if (97 <=? c) && (c <=? 102) then Some (c - 87)
  else if (65 <=? c) && (c <=? 70) then Some (c - 55)
  else None.

Definition unhex4 (h1 h2 h3 h4 : N) : option N :=
  d1 ← unhex h1; d2 ← unhex h2; d3 ← unhex h3; d4 ← unhex h4;
  Some (((d1 * 16 + d2) * 16 + d3) * 16 + d4).

Definition is_high (u : N) : bool := (0xd800 <=? u) && (u <=? 0xdbff).
Definition is_low (u : N) : bool := (0xdc00 <=? u) && (u <=? 0xdfff).

(** The code point a short escape names. *)
Definition unescape (e : N) : option N :=
  if e =? 34 then Some 34
  else if e =? 92 then Some 92
  else if e =? 47 then Some 47
  else if e =? 110 then Some 10
  else if e =? 114 then Some 13
  else if e =? 116 then Some 9
  else if e =? 98 then Some 8
  else if e =? 102 then Some 12
  else None.

(** One more code point in front of what was read. *)
Definition push (c : N) (x : option (pystr * pystr)) : option (pystr * pystr) :=
  match x with
  | Some (s, r) => Some (c :: s, r)
  | None => None
  end.

(** The body of a JSON string up to its closing quote, and the text after
    it.  A [\uXXXX] for a high surrogate followed by one for a low
    surrogate is read as the one code point the pair stands for. *)
Fixpoint scan_string (t : pystr) : option (pystr * pystr) :=
  match t with
  | [] => None
  | c :: t1 =>
      if c =? 34 then Some ([], t1)
      else if c =? 92 then
        match t1 with
        | [] => None
        | e :: t2 =>
            if e =? 117 then
              match t2 with
              | h1 :: h2 :: h3 :: h4 :: t6 =>
                  match unhex4 h1 h2 h3 h4 with
                  | None => None
                  | Some u =>
                      let lone := push u (scan_string t6) in
                      if is_high u then
                        match t6 with
                        | b :: x :: g1 :: g2 :: g3 :: g4 :: t12 =>
                            if (b =? 92) && (x =? 117) then
                              match unhex4 g1 g2 g3 g4 with
                              | Some u2 =>
                                  if is_low u2 then
                                    push (0x10000
                                          + N.lor (N.shiftl (u - 0xd800) 10)
                                                  (u2 - 0xdc00))
                                         (scan_string t12)
                                  else lone
                              | None => lone
                              end
                            else lone
                        | _ => lone
                        end
                      else lone
                  end
              | _ => None
              end
            else
              match unescape e with
              | Some ch => push ch (scan_string t2)
              | None => None
              end
        end
      else push c (scan_string t1)
  end.

(** [expect lit t]: the text after the literal [lit] at the head of [t]. *)
Fixpoint expect (lit t : pystr) : option pystr :=
  match lit with
  | [] => Some t
  | c :: lit' =>
      match t with
      | [] => None
      | c' :: t' => if c =? c' then expect lit' t' else None
      end
  end.

Definition parse_string (t : pystr) : option (pystr * pystr) :=
  t ← expect [34] t; scan_string t.

(** The strings of an array after the first, up to the closing bracket. *)
Fixpoint parse_more (fuel : nat) (t : pystr) : option (list pystr * pystr) :=
  match expect (py "]") t with
  | Some r => Some ([], r)
  | None =>
      match fuel with
      | O => None
      | S fuel =>
          t ← expect (py ", ") t;
          '(s, t) ← parse_string t;
          '(l, r) ← parse_more fuel t;
          Some (s :: l, r)
      end
  end.

(** An array of strings.  Every string takes at least two characters, so
    the length of the text bounds the number of rounds. *)
Definition parse_array (t : pystr) : option (list pystr * pystr) :=
  t ← expect (py "[") t;
  match expect (py "]") t with
  | Some r => Some ([], r)
  | None =>
      '(s, t) ← parse_string t;
      '(l, r) ← parse_more (length t) t;
      Some (s :: l, r)
  end.

Definition parse_bool (t : pystr) : option (bool * pystr) :=
  match expect (py "true") t with
  | Some r => Some (true, r)
  | None => r ← expect (py "false") t; Some (false, r)
  end.

(** [", " + '"key"' + ": "] *)
Definition field (key : string) : pystr :=
  py ", " ++ 34 :: py key ++ 34 :: py ": ".

(** The optional ["scanned"] field and the closing brace. *)
Definition parse_tail (stmts : option (list pystr)) (t : pystr) : option details :=
  match expect (field "scanned") t with
  | Some t =>
      '(b, t) ← parse_bool t;
      match expect (py "}") t with
      | Some [] => Some {| sql_statements := stmts; scanned := Some b |}
      | _ => None
      end
  | None =>
      match expect (py "}") t with
      | Some [] => Some {| sql_statements := stmts; scanned := None |}
      | _ => None
      end
  end.

(** One line of the report: the path and the entry it was written from. *)
Definition parse_line (line : pystr) : option (pystr * details) :=
  t ← expect (py "{" ++ 34 :: py "file_path" ++ 34 :: py ": ") line;
  '(file_path, t) ← parse_string t;
  match expect (field "sql_statements") t with
  | Some t =>
      '(l, t) ← parse_array t;
      d ← parse_tail (Some l) t;
      Some (file_path, d)
  | None =>
      d ← parse_tail None t;
      Some (file_path, d)
  end.

(** The store a report was written from. *)
Definition parse_jsonl (text : pystr) : option (gmap pystr details) :=
  entries ← mapM parse_line (lines text);
  Some (list_to_map entries).

(** ** Trees that a file system can hold *)




(** [under n parts]: following the names [parts] down from the directory
    [n] leads to a file. *)
Inductive under : node → list pystr → Prop :=
  | under_file entries name data :
      (name, File data) ∈ entries → under (Dir entries) [name]
  | under_dir entries name child parts :
      (name, child) ∈ entries → under child parts →
      under (Dir entries) (name :: parts).

(** The files [walk_files] reports, as lists of names. *)
Fixpoint paths (n : node) : list (list pystr) :=
  match n with
  | File _ => []
  | Dir entries =>
      map (fun file => [file]) (filenames entries) ++
      descend (fun name child => map (cons name) (paths child)) entries false
  end.


(** The mapping after the loop has entered every path of [l]. *)
Definition seeded (ra : gmap pystr details) (l : list pystr)
    : gmap pystr details :=
  foldl (fun ra relative_path => <[relative_path := unscanned]> ra) ra l.

(** [existed root p]: [p] is the relative path of a file under [root]. *)
Definition existed (root : node) (p : pystr) : Prop :=
  ∃ parts, p = join_sep parts ∧ under root parts.

(** Invariant I1 for the directory the paths were listed from: every key
    of the mapping is the path of a file that was under it. *)
Definition I1 (root : node) (st : State) : Prop :=
  ∀ ra p, repository_analysis st = Some ra → is_Some (ra !! p) → existed root p.

(** I1 kept by the two writers, whatever path they are called with. *)
Definition I1_kept_by_writers (root : node) (st : State) : Prop :=
  I1 root st →
  ∀ p s, I1 root (save_sql_statements p s st).1
         ∧ I1 root (mark_file_as_scanned p st).1.



(** ** Sessions and hosts to try the tools on *)

(** A session after [clone_git_repo] has put the clone at [/tmp/repo]. *)
Definition session (ra : option (gmap pystr details)) : State :=
  {| repo_url := Some (py "git@host:owner/demo.git");
     repo_owner := Some (py "owner"); repo_name := Some (py "demo");
     repo_path := Some (py "/tmp/repo"); repository_analysis := ra |}.

(** A host where [/tmp/repo] is [root] and every path of [extra] is the
    file with the bytes given. *)
Definition host (root : node) (extra : list (pystr * list byte))
    (path : pystr) : option node :=
  if decide (path = py "/tmp/repo") then Some root
  else File <$> (list_to_map extra : gmap pystr (list byte)) !! path.

(** ** Bytes of a file *)



(** ** Text that the report keeps *)

(** A [str] as decoding text gives it: code points below [0x110000], and
    no high surrogate directly before a low surrogate (the two are one
    code point above the basic plane). *)
Fixpoint is_text (s : pystr) : bool :=
  match s with
  | [] => true
  | c :: rest =>
      (c <? 0x110000)
      && negb (is_high c && match rest with
                            | c2 :: _ => is_low c2
                            | [] => false
                            end)
      && is_text rest
  end.

(** The path and the statements of an entry are such text. *)
Definition entry_text (e : pystr * details) : bool :=
  is_text e.1
  && match sql_statements e.2 with
     | Some l => forallb is_text l
     | None => true
     end.

(** Every entry of the mapping is. *)
Definition text_store (ra : gmap pystr details) : bool :=
  forallb entry_text (map_to_list ra).

(** Whether the text begins with the escape of a low surrogate. *)
Definition low_ahead (t : pystr) : bool :=
  match t with
  | b :: x :: g1 :: g2 :: g3 :: g4 :: _ =>
      (b =? 92) && (x =? 117)
      && match unhex4 g1 g2 g3 g4 with
         | Some u2 => is_low u2
         | None => false
         end
  | _ => false
  end.

(** Lines put together again, each with its terminator. *)
Definition unlines (ls : list pystr) : pystr :=
  flat_map (fun l => l ++ [10]) ls.

(** The line written for one entry. *)
Definition line_of (e : pystr * details) : pystr :=
  json_dumps (record_of e.1 e.2).

(** ** The text of the report *)

(** The shapes of what is written for one code point. *)
Inductive encoded (c : N) : pystr → Prop :=
  | enc_short e : e ≠ 117 → unescape e = Some c → encoded c [92; e]
  | enc_plain : c ≠ 34 → c ≠ 92 → 32 ≤ c ≤ 126 → encoded c [c]
  | enc_escape : c < 0x10000 → encoded c (escape_u c)
  | enc_pair hi lo :
      hi < 1024 → lo < 1024 →
      0x10000 + N.lor (N.shiftl hi 10) lo = c →
      encoded c (escape_u (0xd800 + hi) ++ escape_u (0xdc00 + lo)).

(** What [ensure_ascii] promises for a character of the output. *)
Definition printable (c : N) : Prop := 32 ≤ c ≤ 126.

(** The text of an entry after its path. *)
Definition entry_tail d : pystr :=
  match sql_statements d with
  | Some l => field "sql_statements" ++ dumps_value (VList l)
  | None => []
  end
  ++ match scanned d with
     | Some b => field "scanned" ++ dumps_value (VBool b)
     | None => []
     end
  ++ py "}".

(** A reader that gives back the mapping of every report. *)
Definition reconstructs (parse : pystr → option (gmap pystr details)) : Prop :=
  ∀ cwd denied st ra r text,
    repository_analysis st = Some ra →
    generate_repository_analysis_jsonl cwd denied st = (r, Some text) →
    parse text = Some ra.

(** ** The mapping after a write *)

(** What the two writers leave in the mapping, in one step. *)
Definition recorded (s : list pystr) (p : pystr) (ra : gmap pystr details)
    : gmap pystr details :=
  <[p := {| sql_statements := Some s; scanned := Some true |}]> ra.

Definition marked (p : pystr) (ra : gmap pystr details) : gmap pystr details :=
  <[p := {| sql_statements :=
              match ra !! p with
              | Some d => sql_statements d
              | None => Some []
              end;
            scanned := Some true |}]> ra.

(** * Further definitions *)

(** ** Sequences of writes *)

(** One call of a writer. *)
Inductive write :=
  | Save (p : pystr) (s : list pystr)
  | Mark (p : pystr).

Definition target (w : write) : pystr :=
  match w with Save p _ => p | Mark p => p end.

Definition call (w : write) (st : State) : State * response :=
  match w with
  | Save p s => save_sql_statements p s st
  | Mark p => mark_file_as_scanned p st
  end.

(** The state after the calls [ws], made in order. *)
Definition run (ws : list write) (st : State) : State :=
  foldl (fun st w => (call w st).1) st ws.

(** The mapping one call leaves. *)
Definition written (w : write) (ra : gmap pystr details) : gmap pystr details :=
  match w with
  | Save p s => recorded s p ra
  | Mark p => marked p ra
  end.

(** A Unicode scalar value: a code point that is not a surrogate. *)
Definition scalar (c : N) : bool :=
  (c <? 0xD800) || ((0xDFFF <? c) && (c <? 0x110000)).

(** ** Matching the repository URL *)

(** The pieces the pattern is made of: characters as they are, a run
    [cls+] or [cls+?] of characters of a class, in a capturing group or
    not, an optional [(?:s)?], and [$]. *)
Inductive piece :=
  | Lit (s : pystr)
  | Run (cls : N → bool) (greedy group : bool)
  | Opt (s : pystr)
  | End.

(** [$] without [re.MULTILINE]: at the end of the text, or before a line
    feed that ends it. *)
Definition at_end (t : pystr) : bool :=
  match t with
  | [] => true
  | [c] => c =? 10
  | _ => false
  end.

Section run.
Context (cls : N → bool) (greedy group : bool)
  (rest_matches : pystr → list pystr → option (list pystr)).

(** A run of one or more characters of [cls], [taken] (last one first)
    so far.  A greedy run takes all it can and gives back one character
    at a time while what follows does not match; a lazy run takes one
    more character each time what follows does not match. *)
Fixpoint run_from (taken t : pystr) (groups : list pystr)
    : option (list pystr) :=
  match t with
  | [] => None
  | c :: t' =>
      if cls c then
        let here :=
          rest_matches t' (if group then groups ++ [rev (c :: taken)]
                           else groups) in
        if greedy then
          match run_from (c :: taken) t' groups with
          | Some g => Some g
          | None => here
          end
        else
          match here with
          | Some g => Some g
          | None => run_from (c :: taken) t' groups
          end
      else None
  end.
End run.

(** The pattern matched at the head of [t]: the groups, in order. *)
Fixpoint match_here (pat : list piece) (t : pystr) (groups : list pystr)
    : option (list pystr) :=
  match pat with
  | [] => Some groups
  | Lit s :: pat' =>
      match expect s t with
      | Some t' => match_here pat' t' groups
      | None => None
      end
  | Run cls greedy group :: pat' =>
      run_from cls greedy group (match_here pat') [] t groups
  | Opt s :: pat' =>
      match expect s t with
      | Some t' =>
          match match_here pat' t' groups with
          | Some g => Some g
          | None => match_here pat' t groups
          end
      | None => match_here pat' t groups
      end
  | End :: pat' => if at_end t then match_here pat' t groups else None
  end.

(** [re.search]: the match at the first position that has one. *)
Fixpoint search (pat : list piece) (t : pystr) : option (list pystr) :=
  match match_here pat t [] with
  | Some g => Some g
  | None =>
      match t with
      | [] => None
      | _ :: t' => search pat t'
      end
  end.

(** [[\w.-]], with [word] for [\w]. *)
Definition name_char (word : N → bool) (c : N) : bool :=
  word c || (c =? 46) || (c =? 45).

(** [git@[\w.-]+:([\w.-]+)/([\w.-]+?)(?:\.git)?$] *)
Definition ssh_url_pattern (word : N → bool) : list piece :=
  [Lit (py "git@"); Run (name_char word) true false; Lit (py ":");
   Run (name_char word) true true; Lit (py "/");
   Run (name_char word) false true; Opt (py ".git"); End].

(** The groups after a run that took [x]. *)
Definition grouped (group : bool) (taken x : pystr) (groups : list pystr)
    : list pystr :=
  if group then groups ++ [rev taken ++ x] else groups.

(** What may follow the name: nothing or [.git], and then nothing or a
    line feed. *)
Definition url_tails : list pystr :=
  [[]; [10]; py ".git"; py ".git" ++ [10]].

(** ** Cloning *)

(** [prefix] of the directory made for a clone. *)
Definition clone_prefix (owner name : pystr) : pystr :=
  py "repo_" ++ owner ++ py "_" ++ name ++ py "_".

(** An exception caught: whether it is a [git.GitError], and [str(e)]. *)
Record exn := { git_error : bool; exn_text : pystr }.

(** What the call does to the host. *)
Inductive effect :=
  | Mkdtemp (prefix : pystr)
  | CloneFrom (url path : pystr)
  | Rmtree (path : pystr).

(** The host at the time of the call: [\w], [tempfile.mkdtemp] and
    [git.Repo.clone_from] with the exception they raise if they do, and
    [os.path.exists] after a failure. *)
Record environment := {
  word : N → bool;
  mkdtemp : pystr → exn + pystr;
  clone_from : pystr → pystr → option exn;
  exists_after : pystr → bool
}.

Definition error_message (e : exn) : pystr :=
  (if git_error e then py "Git command error" else py "Unexpected error")
  ++ py ": " ++ exn_text e.

Definition clone_git_repo (env : environment) (repo_url : pystr) (st : State)
    : State * response * list effect :=
  match search (ssh_url_pattern (word env)) repo_url with
  | Some [owner; name] =>
      let prefix := clone_prefix owner name in
      match mkdtemp env prefix with
      | inl e => (st, reply failure (error_message e), [Mkdtemp prefix])
      | inr path =>
          match clone_from env repo_url path with
          | None =>
              ({| repo_url := Some repo_url; repo_owner := Some owner;
                  repo_name := Some name; repo_path := Some path;
                  repository_analysis := Some ∅ |},
               reply success (py "Successfully cloned " ++ name
                              ++ py " repository. Repo information stored in agent context."),
               [Mkdtemp prefix; CloneFrom repo_url path])
          | Some e =>
              (st, reply failure (error_message e),
               [Mkdtemp prefix; CloneFrom repo_url path]
               ++ match path with
                  | [] => []
                  | _ :: _ => if exists_after env path then [Rmtree path] else []
                  end)
          end
      end
  | _ =>
      (st, reply failure (py "Invalid or unsupported SSH repository URL format: "
                          ++ repo_url
                          ++ py ". Expected format like 'git@hostname:owner/repo.git'."),
       [])
  end.

(** [\w] on ASCII. *)
Definition ascii_word (c : N) : bool :=
  ((48 <=? c) && (c <=? 57)) || ((65 <=? c) && (c <=? 90))
  || ((97 <=? c) && (c <=? 122)) || (c =? 95).

(** ** A host and a tree to try the tools on *)

(** A host on which every clone succeeds and lands in [/tmp/repo]. *)
Definition demo_env : environment :=
  {| word := ascii_word;
     mkdtemp := fun _ => inr (py "/tmp/repo");
     clone_from := fun _ _ => None;
     exists_after := fun _ => true |}.

Definition demo_url : pystr := py "git@host:owner/demo.git".

(** A clone with two files to scan, a [.git] directory and a file named
    [.git]. *)
Definition demo_entries : list (pystr * node) :=
  [(py "x.txt", File []);
   (py ".git", Dir [(py "HEAD", File [])]);
   (py "src", Dir [(py "q.sql", File ["S"%byte; "Q"%byte; "L"%byte]);
                   (py ".git", File [])])].

(** * Properties of the store *)

Section store.
Implicit Types (st : State) (ra : gmap pystr details) (p q : pystr)
  (d : details) (s : list pystr).

Lemma save_sql_statements_seeded st ra p s :
  repository_analysis st = Some ra →
  save_sql_statements p s st
  = (with_analysis st (recorded s p ra), reply success (py "statement saved")).
Proof.
  intros Hra. unfold save_sql_statements, recorded. rewrite Hra.
  do 2 f_equal. apply map_eq. intros q.
  destruct (decide (p = q)) as [<-|Hne].
  - rewrite !lookup_alter_eq, lookup_insert_eq.
    destruct (ra !! p) as [d|] eqn:Hp; [rewrite Hp | rewrite lookup_insert_eq];
      reflexivity.
  - rewrite !lookup_alter_ne, lookup_insert_ne by done.
    destruct (ra !! p); [done | by rewrite lookup_insert_ne].
Qed.

Lemma mark_file_as_scanned_seeded st ra p :
  repository_analysis st = Some ra →
  mark_file_as_scanned p st
  = (with_analysis st (marked p ra),
     reply success (p ++ py " marked as scanned.")).
Proof.
  intros Hra. unfold mark_file_as_scanned, marked. rewrite Hra.
  do 2 f_equal. apply map_eq. intros q.
  destruct (decide (p = q)) as [<-|Hne].
  - rewrite lookup_alter_eq, lookup_insert_eq.
    destruct (ra !! p) as [d|] eqn:Hp; [rewrite Hp | rewrite lookup_insert_eq];
      reflexivity.
  - rewrite lookup_alter_ne, lookup_insert_ne by done.
    destruct (ra !! p); [done | by rewrite lookup_insert_ne].
Qed.

Lemma first_unscanned_None (l : list (pystr * details)) :
  first_unscanned l = None ↔ Forall (fun e => scanned e.2 = Some true) l.
Proof.
  induction l as [|[k d] l IH]; simpl.
  - split; [constructor | done].
  - unfold get_scanned. destruct (scanned d) as [[]|] eqn:Hd; simpl.
    + rewrite IH. split.
      * intros H. by constructor.
      * by inversion 1.
    + split; [done | inversion 1; simplify_eq/=].
    + split; [done | inversion 1; simplify_eq/=].
Qed.

Lemma first_unscanned_all ra :
  first_unscanned (map_to_list ra) = None
  ↔ ∀ p d, ra !! p = Some d → scanned d = Some true.
Proof.
  rewrite first_unscanned_None, Forall_forall. split.
  - intros H p d Hp. apply (H (p, d)). by apply elem_of_map_to_list.
  - intros H [p d] Hin. apply (H p). by apply elem_of_map_to_list.
Qed.

(** C1: the completion check answers [all_files_scanned = True] exactly
    when the mapping is empty or every entry has its [scanned] flag set
    to [True]; on the empty mapping it answers [True]. *)
Theorem are_all_files_scanned_spec st ra :
  repository_analysis st = Some ra →
  (all_files_scanned (are_all_files_scanned st) = Some true
   ↔ ra = ∅ ∨ ∀ p d, ra !! p = Some d → scanned d = Some true)
  ∧ (ra = ∅ → are_all_files_scanned st
              = answer (py "No files to scan.") true success).
Proof.
  intros Hra. unfold are_all_files_scanned. rewrite Hra. split.
  - destruct (decide (ra = ∅)) as [->|Hne]; simpl.
    + split; [by left | done].
    + destruct (first_unscanned (map_to_list ra)) as [k|] eqn:Hf; simpl.
      * split; [done|]. intros [?|Hall]; [done|].
        apply (proj2 (first_unscanned_all ra)) in Hall. congruence.
      * split; [|done]. intros _. right. by apply (proj1 (first_unscanned_all ra)).
  - intros ->. by rewrite decide_True.
Qed.

(** C3: recording statements for a path that the mapping does not hold
    creates the entry [{statements: s, scanned: True}], the mapping has
    one entry more, and every other entry is as before. *)
Theorem save_sql_statements_absent st ra p s :
  repository_analysis st = Some ra →
  ra !! p = None →
  ∃ ra',
    save_sql_statements p s st
    = (with_analysis st ra', reply success (py "statement saved"))
    ∧ ra' !! p = Some {| sql_statements := Some s; scanned := Some true |}
    ∧ size ra' = S (size ra)
    ∧ ∀ q, q ≠ p → ra' !! q = ra !! q.
Proof.
  intros Hra Hp. exists (recorded s p ra). split; [|split; [|split]].
  - by apply save_sql_statements_seeded.
  - apply lookup_insert_eq.
  - by apply map_size_insert_None.
  - intros q Hq. by apply lookup_insert_ne.
Qed.

(** C4: recording the same statements for the same path a second time
    changes nothing: the state and the answer are those of the first
    call. *)
Theorem save_sql_statements_idempotent st p s :
  save_sql_statements p s (save_sql_statements p s st).1
  = save_sql_statements p s st.
Proof.
  destruct (repository_analysis st) as [ra|] eqn:Hra.
  - rewrite (save_sql_statements_seeded st ra) by done. simpl.
    rewrite (save_sql_statements_seeded _ (recorded s p ra)) by done.
    unfold recorded, with_analysis. simpl. by rewrite insert_insert_eq.
  - unfold save_sql_statements. rewrite Hra. simpl. by rewrite Hra.
Qed.

(** C5: marking a path as scanned sets its [scanned] flag; the statements
    of an entry that was there stay, an entry that was not there is
    created with no statements; every other entry is as before. *)
Theorem mark_file_as_scanned_spec st ra p :
  repository_analysis st = Some ra →
  ∃ ra',
    mark_file_as_scanned p st
    = (with_analysis st ra', reply success (p ++ py " marked as scanned."))
    ∧ (∀ d, ra !! p = Some d →
            ra' !! p = Some {| sql_statements := sql_statements d;
                               scanned := Some true |})
    ∧ (ra !! p = None →
       ra' !! p = Some {| sql_statements := Some []; scanned := Some true |})
    ∧ ∀ q, q ≠ p → ra' !! q = ra !! q.
Proof.
  intros Hra. exists (marked p ra). split; [|split; [|split]].
  - by apply mark_file_as_scanned_seeded.
  - intros d Hp. unfold marked. by rewrite lookup_insert_eq, Hp.
  - intros Hp. unfold marked. by rewrite lookup_insert_eq, Hp.
  - intros q Hq. by apply lookup_insert_ne.
Qed.

(** C8: without ['repository_analysis'] in the state the two writers and
    the completion check answer with a failure and the state stays as
    it is. *)
Theorem unseeded_store_fails st p s :
  repository_analysis st = None →
  save_sql_statements p s st
  = (st, reply failure (py "Error: 'repository_analysis' not found in tool_context.state. Cannot save SQL statement."))
  ∧ mark_file_as_scanned p st
    = (st, reply failure (py "Error: 'repository_analysis' not found in tool_context.state. Cannot save mark file as scanned."))
  ∧ are_all_files_scanned st
    = answer (py "Error: 'repository_analysis' not found in tool_context.state. Cannot determine if all files were scanned.") false failure.
Proof.
  intros Hra.
  unfold save_sql_statements, mark_file_as_scanned, are_all_files_scanned.
  by rewrite Hra.
Qed.

(** C10: an entry without a [scanned] key counts as not scanned: the
    completion check answers [all_files_scanned = False]. *)
Theorem are_all_files_scanned_missing_flag st ra p d :
  repository_analysis st = Some ra →
  ra !! p = Some d →
  scanned d = None →
  are_all_files_scanned st
  = answer (py "Not all files have been scanned.") false success.
Proof.
  intros Hra Hp Hd. unfold are_all_files_scanned. rewrite Hra.
  rewrite decide_False by (intros ->; by rewrite lookup_empty in Hp).
  destruct (first_unscanned (map_to_list ra)) eqn:Hf; [done|].
  pose proof (proj1 (first_unscanned_all ra) Hf p d Hp). congruence.
Qed.
Lemma are_all_files_scanned_spec_witness :
  (all_files_scanned
     (are_all_files_scanned (session (Some (marked (py "x.txt") ∅))))
   = Some true
   ↔ marked (py "x.txt") ∅ = ∅
     ∨ ∀ p d, marked (py "x.txt") ∅ !! p = Some d → scanned d = Some true)
  ∧ (marked (py "x.txt") ∅ = ∅ →
     are_all_files_scanned (session (Some (marked (py "x.txt") ∅)))
     = answer (py "No files to scan.") true success).
Proof. apply are_all_files_scanned_spec. reflexivity. Defined.

Lemma save_sql_statements_absent_witness :
  ∃ ra',
    save_sql_statements (py "y.sql") [py "INSERT INTO t VALUES (1)"]
                        (session (Some (seeded ∅ [py "x.txt"])))
    = (with_analysis (session (Some (seeded ∅ [py "x.txt"]))) ra',
       reply success (py "statement saved"))
    ∧ ra' !! py "y.sql"
      = Some {| sql_statements := Some [py "INSERT INTO t VALUES (1)"];
                scanned := Some true |}
    ∧ size ra' = S (size (seeded ∅ [py "x.txt"]))
    ∧ ∀ q, q ≠ py "y.sql" → ra' !! q = seeded ∅ [py "x.txt"] !! q.
Proof. apply save_sql_statements_absent; reflexivity. Defined.

Lemma mark_file_as_scanned_spec_witness :
  ∃ ra',
    mark_file_as_scanned (py "x.txt") (session (Some (seeded ∅ [py "x.txt"])))
    = (with_analysis (session (Some (seeded ∅ [py "x.txt"]))) ra',
       reply success (py "x.txt" ++ py " marked as scanned."))
    ∧ (∀ d, seeded ∅ [py "x.txt"] !! py "x.txt" = Some d →
            ra' !! py "x.txt" = Some {| sql_statements := sql_statements d;
                                        scanned := Some true |})
    ∧ (seeded ∅ [py "x.txt"] !! py "x.txt" = None →
       ra' !! py "x.txt"
       = Some {| sql_statements := Some []; scanned := Some true |})
    ∧ ∀ q, q ≠ py "x.txt" → ra' !! q = seeded ∅ [py "x.txt"] !! q.
Proof. apply mark_file_as_scanned_spec. reflexivity. Defined.

Lemma unseeded_store_fails_witness :
  save_sql_statements (py "x.txt") [] (session None)
  = (session None, reply failure (py "Error: 'repository_analysis' not found in tool_context.state. Cannot save SQL statement."))
  ∧ mark_file_as_scanned (py "x.txt") (session None)
    = (session None, reply failure (py "Error: 'repository_analysis' not found in tool_context.state. Cannot save mark file as scanned."))
  ∧ are_all_files_scanned (session None)
    = answer (py "Error: 'repository_analysis' not found in tool_context.state. Cannot determine if all files were scanned.") false failure.
Proof. apply unseeded_store_fails. reflexivity. Defined.

Lemma are_all_files_scanned_missing_flag_witness :
  are_all_files_scanned
    (session (Some (<[py "x.txt" := {| sql_statements := Some [];
                                       scanned := None |}]>
                      (marked (py "a.py") ∅))))
  = answer (py "Not all files have been scanned.") false success.
Proof.
  eapply (are_all_files_scanned_missing_flag _ _ (py "x.txt")); reflexivity.
Defined.
End store.

(** * Properties of the enumeration *)

Section tree.
Implicit Types (n : node) (es : list (pystr * node)) (parts rel : list pystr).

Lemma node_ind (P : node → Prop) :
  (∀ data, P (File data)) →
  (∀ es, Forall (fun e => P e.2) es → P (Dir es)) →
  ∀ n, P n.
Proof.
  intros Hfile Hdir. fix IH 1. intros [data|es]; [apply Hfile|].
  apply Hdir.
  refine ((fix go (l : list (pystr * node)) : Forall (fun e => P e.2) l :=
             match l with
             | [] => Forall_nil_2 _
             | e :: l' => Forall_cons_2 _ _ _ (IH e.2) (go l')
             end) es).
Qed.



Lemma elem_of_filenames es name :
  name ∈ filenames es ↔ ∃ data, (name, File data) ∈ es.
Proof.
  induction es as [|[name' [data|sub]] es IH]; simpl.
  - split; [by intros ?%elem_of_nil | by intros [? ?%elem_of_nil]].
  - rewrite elem_of_cons, IH. split.
    + intros [->|[d Hd]]; [exists data; left | exists d; by right].
    + intros [d Hd]. apply elem_of_cons in Hd as [Hd|Hd];
        [left; congruence | right; eauto].
  - rewrite IH. split.
    + intros [d Hd]. exists d. by right.
    + intros [d Hd]. apply elem_of_cons in Hd as [Hd|Hd]; [done | eauto].
Qed.


Section descend_facts.
Context {A : Type}.
Implicit Types (f g : pystr → node → list A).

Lemma descend_ext f g es pruned :
  Forall (fun e => f e.1 e.2 = g e.1 e.2) es →
  descend f es pruned = descend g es pruned.
Proof.
  intros H. revert pruned.
  induction H as [|[name [data|sub]] es Hfg _ IH]; intros pruned; simpl.
  - done.
  - apply IH.
  - simpl in Hfg. rewrite Hfg, !IH. done.
Qed.



Lemma elem_of_descend f es pruned x :
  x ∈ descend f es pruned →
  ∃ name sub, (name, Dir sub) ∈ es ∧ x ∈ f name (Dir sub).
Proof.
  revert pruned.
  induction es as [|[name [data|sub]] es IH]; simpl; intros pruned Hx.
  - by apply elem_of_nil in Hx.
  - destruct (IH _ Hx) as (name' & sub' & Hin & Hx').
    exists name', sub'. split; [by right | done].
  - destruct (bool_decide (name = GIT) && negb pruned).
    + destruct (IH _ Hx) as (name' & sub' & Hin & Hx').
      exists name', sub'. split; [by right | done].
    + apply elem_of_app in Hx as [Hx|Hx].
      * exists name, sub. split; [by left | done].
      * destruct (IH _ Hx) as (name' & sub' & Hin & Hx').
        exists name', sub'. split; [by right | done].
Qed.
End descend_facts.

Lemma descend_fmap {A B} (h : A → B) (f : pystr → node → list A) es pruned :
  descend (fun name child => h <$> f name child) es pruned
  = h <$> descend f es pruned.
Proof.
  revert pruned.
  induction es as [|[name [data|sub]] es IH]; intros pruned; simpl.
  - done.
  - apply IH.
  - destruct (bool_decide (name = GIT) && negb pruned); [apply IH|].
    by rewrite fmap_app, IH.
Qed.

Lemma walk_files_paths n rel :
  walk_files rel n = (fun parts => join_sep (rel ++ parts)) <$> paths n.
Proof.
  revert rel. induction n as [data|es IH] using node_ind; intros rel; simpl.
  - done.
  - rewrite fmap_app. f_equal.
    + rewrite <- list_fmap_compose. done.
    + rewrite <- descend_fmap. apply descend_ext.
      eapply Forall_impl; [exact IH|]. intros [name child] Hc. simpl in *.
      rewrite Hc, <- list_fmap_compose. apply list_fmap_ext.
      intros _ parts _. simpl. by rewrite <- app_assoc.
Qed.




Lemma elem_of_paths_Dir es parts :
  parts ∈ paths (Dir es) →
  (∃ data, parts = [parts !!! 0%nat] ∧ (parts !!! 0%nat, File data) ∈ es)
  ∨ ∃ name sub rest,
      parts = name :: rest ∧ (name, Dir sub) ∈ es ∧ rest ∈ paths (Dir sub).
Proof.
  simpl. intros [H|H]%elem_of_app.
  - apply list_elem_of_fmap in H as (file & -> & Hfile).
    apply elem_of_filenames in Hfile as [data Hdata]. left. by exists data.
  - apply elem_of_descend in H as (name & sub & Hin & Hx).
    apply list_elem_of_fmap in Hx as (rest & -> & Hrest).
    right. by exists name, sub, rest.
Qed.

Lemma paths_under n parts : parts ∈ paths n → under n parts.
Proof.
  revert parts. induction n as [data|es IH] using node_ind; intros parts Hin.
  - by apply elem_of_nil in Hin.
  - apply elem_of_paths_Dir in Hin
      as [(data & -> & Hin)|(name & sub & rest & -> & Hin & Hrest)].
    + by eapply under_file.
    + eapply under_dir; [done|].
      rewrite Forall_forall in IH. by apply (IH (name, Dir sub)).
Qed.












Lemma elem_of_walk_files n p :
  p ∈ walk_files [] n → ∃ parts, p = join_sep parts ∧ under n parts.
Proof.
  rewrite walk_files_paths. intros (parts & -> & Hin)%list_elem_of_fmap.
  exists parts. split; [done | by apply paths_under].
Qed.
End tree.

Section seed.
Implicit Types (ra : gmap pystr details) (l : list pystr) (p : pystr).

Lemma lookup_seeded ra l p :
  seeded ra l !! p = if decide (p ∈ l) then Some unscanned else ra !! p.
Proof.
  unfold seeded. revert ra. induction l as [|q l IH]; intros ra; cbn [foldl].
  - case_decide as Hin; [by apply elem_of_nil in Hin | done].
  - rewrite IH. destruct (decide (p ∈ l)) as [Hin|Hnotin].
    + rewrite decide_True; [done | by right].
    + destruct (decide (p = q)) as [->|Hne].
      * rewrite lookup_insert_eq, decide_True; [done | by left].
      * rewrite lookup_insert_ne by done.
        rewrite decide_False; [done|].
        intros Hin. by apply elem_of_cons in Hin as [?|?].
Qed.


End seed.

Section enumeration.
Implicit Types (st : State) (ra : gmap pystr details) (p : pystr).

Lemma list_repo_files_Dir fs st root es :
  repo_path st = Some root → fs root = Some (Dir es) →
  list_repo_files fs st
  = Returns
      (with_analysis st (seeded (default ∅ (repository_analysis st))
                                (walk_files [] (Dir es))),
       {| status := success;
          message := py "Fount " ++ str_of_nat (length (walk_files [] (Dir es)))
                     ++ py " files to scan. File list stored in agent context.";
          all_files_scanned := None;
          files := Some (walk_files [] (Dir es));
          directory_path := None; content := None;
          output_file_path := None |}).
Proof. intros Hroot Hfs. unfold list_repo_files. by rewrite Hroot, Hfs. Qed.




Lemma I1_insert root st ra p d :
  repository_analysis st = Some ra →
  I1 root (with_analysis st (<[p := d]> ra)) ↔ I1 root st ∧ existed root p.
Proof.
  intros Hra. unfold I1. simpl. split.
  - intros H. split.
    + intros ra' q Hra' Hq. rewrite Hra in Hra'. injection Hra' as <-.
      apply (H _ q eq_refl).
      rewrite lookup_insert. case_decide; [by eauto | done].
    + apply (H _ p eq_refl). rewrite lookup_insert_eq. by eauto.
  - intros [H Hp] ra' q [= <-]. rewrite lookup_insert.
    case_decide as Hq; [by subst | by apply H].
Qed.

Lemma I1_save_sql_statements root st ra p s :
  repository_analysis st = Some ra →
  I1 root (save_sql_statements p s st).1 ↔ I1 root st ∧ existed root p.
Proof.
  intros Hra. rewrite (save_sql_statements_seeded st ra) by done.
  by apply I1_insert.
Qed.

Lemma I1_mark_file_as_scanned root st ra p :
  repository_analysis st = Some ra →
  I1 root (mark_file_as_scanned p st).1 ↔ I1 root st ∧ existed root p.
Proof.
  intros Hra. rewrite (mark_file_as_scanned_seeded st ra) by done.
  by apply I1_insert.
Qed.

Lemma I1_seeded root st l :
  I1 root st → (∀ p, p ∈ l → existed root p) →
  I1 root (with_analysis st (seeded (default ∅ (repository_analysis st)) l)).
Proof.
  intros HI1 Hl ra' q Hra'. simpl in Hra'. injection Hra' as <-.
  rewrite lookup_seeded. case_decide as Hq; [intros _; by apply Hl|].
  destruct (repository_analysis st) as [ra|] eqn:Hra; simpl.
  - apply (HI1 ra q Hra).
  - rewrite lookup_empty. by intros [? ?].
Qed.

(** C7: the enumeration establishes and keeps I1, and a writer keeps it
    when the path it is called with existed under the root; on a seeded
    mapping that is the only case in which it does. *)
Theorem I1_preserved fs st root es p s :
  repo_path st = Some root → fs root = Some (Dir es) → I1 (Dir es) st →
  (∃ st' r, list_repo_files fs st = Returns (st', r) ∧ I1 (Dir es) st')
  ∧ (existed (Dir es) p →
     I1 (Dir es) (save_sql_statements p s st).1
     ∧ I1 (Dir es) (mark_file_as_scanned p st).1)
  ∧ (is_Some (repository_analysis st) →
     I1 (Dir es) (save_sql_statements p s st).1
     ∨ I1 (Dir es) (mark_file_as_scanned p st).1 →
     existed (Dir es) p).
Proof.
  intros Hroot Hfs HI1. split; [|split].
  - eexists _, _. split; [apply (list_repo_files_Dir fs st root es Hroot Hfs)|].
    apply I1_seeded; [done|]. intros q. apply elem_of_walk_files.
  - intros Hp. destruct (repository_analysis st) as [ra|] eqn:Hra.
    + by rewrite (I1_save_sql_statements _ _ ra), (I1_mark_file_as_scanned _ _ ra).
    + unfold save_sql_statements, mark_file_as_scanned. by rewrite Hra.
  - intros [ra Hra] [H|H].
    + by apply (I1_save_sql_statements _ _ ra) in H as [_ ?].
    + by apply (I1_mark_file_as_scanned _ _ ra) in H as [_ ?].
Qed.

(** Recording statements for [y.sql] after the enumeration of an empty
    directory adds a key that names no file under it. *)
Lemma I1_broken_by_self_healing_insert :
  ¬ I1_kept_by_writers (Dir []) (session (Some ∅)).
Proof.
  intros H.
  assert (I1 (Dir []) (session (Some ∅))) as HI1.
  { intros ra p [= <-]. rewrite lookup_empty. by intros [? ?]. }
  destruct (H HI1 (py "y.sql") [py "INSERT INTO t VALUES (1)"]) as [Hsave _].
  apply (I1_save_sql_statements _ _ ∅) in Hsave as [_ (parts & _ & Hunder)];
    [|done].
  inversion Hunder as [? ? ? Hin|? ? ? ? Hin]; by apply elem_of_nil in Hin.
Qed.

Lemma I1_preserved_witness :
  (∃ st' r, list_repo_files (host (Dir [(py "x.txt", File [])]) [])
              (session (Some ∅)) = Returns (st', r)
            ∧ I1 (Dir [(py "x.txt", File [])]) st')
  ∧ (existed (Dir [(py "x.txt", File [])]) (py "x.txt") →
     I1 (Dir [(py "x.txt", File [])])
        (save_sql_statements (py "x.txt") [] (session (Some ∅))).1
     ∧ I1 (Dir [(py "x.txt", File [])])
          (mark_file_as_scanned (py "x.txt") (session (Some ∅))).1)
  ∧ (is_Some (repository_analysis (session (Some ∅))) →
     I1 (Dir [(py "x.txt", File [])])
        (save_sql_statements (py "x.txt") [] (session (Some ∅))).1
     ∨ I1 (Dir [(py "x.txt", File [])])
          (mark_file_as_scanned (py "x.txt") (session (Some ∅))).1 →
     existed (Dir [(py "x.txt", File [])]) (py "x.txt")).
Proof.
  apply (I1_preserved _ _ (py "/tmp/repo")); [reflexivity..|].
  intros ra p [= <-]. rewrite lookup_empty. by intros [? ?].
Defined.
End enumeration.

(** * Properties of the reader *)

Section reader.
Implicit Types (b : byte) (s pre post : list byte).







End reader.

(** * Properties of the report *)

Section hex.
Implicit Types (n d c : N).

Lemma unhex_hexdigit d : d < 16 → unhex (hexdigit d) = Some d.
Proof.
  intros Hd. unfold unhex, hexdigit.
  destruct (N.ltb_spec d 10).
  - rewrite (proj2 (N.leb_le 48 (48 + d))), (proj2 (N.leb_le (48 + d) 57)) by lia.
    simpl. f_equal. lia.
  - rewrite (proj2 (N.leb_gt (87 + d) 57)), andb_false_r by lia.
    rewrite (proj2 (N.leb_le 97 (87 + d))), (proj2 (N.leb_le (87 + d) 102)) by lia.
    simpl. f_equal. lia.
Qed.

Lemma digits16 n :
  n < 65536 →
  ((n / 4096 mod 16 * 16 + n / 256 mod 16) * 16 + n / 16 mod 16) * 16 + n mod 16 = n.
Proof.
  intros Hn.
  pose proof (N.div_mod n 16 ltac:(lia)) as H0.
  pose proof (N.div_mod (n / 16) 16 ltac:(lia)) as H1.
  pose proof (N.div_mod (n / 16 / 16) 16 ltac:(lia)) as H2.
  pose proof (N.mod_lt n 16 ltac:(lia)).
  pose proof (N.mod_lt (n / 16) 16 ltac:(lia)).
  pose proof (N.mod_lt (n / 16 / 16) 16 ltac:(lia)).
  rewrite !N.Div0.div_div in *.
  change (16 * 16) with 256 in *. change (256 * 16) with 4096 in *.
  assert (n / 4096 < 16) by (apply N.Div0.div_lt_upper_bound; lia).
  rewrite (N.mod_small (n / 4096) 16) by done.
  lia.
Qed.

Lemma unhex4_hex4 n rest :
  n < 65536 →
  match hex4 n ++ rest with
  | h1 :: h2 :: h3 :: h4 :: t => unhex4 h1 h2 h3 h4 = Some n ∧ t = rest
  | _ => False
  end.
Proof.
  intros Hn. unfold hex4. simpl. split; [|done]. unfold unhex4.
  rewrite !unhex_hexdigit by (apply N.mod_lt; lia). simpl.
  by rewrite digits16.
Qed.

Lemma lor_shiftl_low a b n : b < 2 ^ n → N.lor (N.shiftl a n) b = a * 2 ^ n + b.
Proof.
  intros Hb.
  assert (N.land (N.shiftl a n) b = 0) as Hland.
  { apply N.bits_inj_0. intros m. rewrite N.land_spec.
    destruct (N.lt_ge_cases m n) as [Hm|Hm].
    - by rewrite N.shiftl_spec_low.
    - destruct (decide (b = 0)) as [->|Hb0]; [by rewrite N.bits_0, andb_false_r|].
      rewrite (N.bits_above_log2 b m), andb_false_r; [done|].
      apply N.lt_le_trans with n; [|done]. apply N.log2_lt_pow2; lia. }
  by rewrite <- N.lxor_lor, <- N.add_nocarry_lxor, N.shiftl_mul_pow2.
Qed.

(** The two halves of the pair written for a code point above the basic
    plane. *)
Lemma surrogates c :
  0x10000 ≤ c < 0x110000 →
  let n := c - 0x10000 in
  let s1 := N.lor 0xd800 (N.land (N.shiftr n 10) 0x3ff) in
  let s2 := N.lor 0xdc00 (N.land n 0x3ff) in
  s1 = 0xd800 + n / 1024 ∧ s2 = 0xdc00 + n mod 1024
  ∧ 0x10000 + N.lor (N.shiftl (s1 - 0xd800) 10) (s2 - 0xdc00) = c.
Proof.
  intros Hc n s1 s2.
  assert (n < 1048576) as Hn by (unfold n; lia).
  assert (n / 1024 < 1024) as Hhi by (apply N.Div0.div_lt_upper_bound; lia).
  assert (n mod 1024 < 1024) as Hlo by (apply N.mod_lt; lia).
  assert (s1 = 0xd800 + n / 1024) as Hs1.
  { unfold s1. change 0x3ff with (N.ones 10). rewrite N.land_ones, N.shiftr_div_pow2.
    change (2 ^ 10) with 1024. rewrite (N.mod_small (n / 1024)) by done.
    change 0xd800 with (N.shiftl 54 10) at 1. rewrite lor_shiftl_low by done.
    done. }
  assert (s2 = 0xdc00 + n mod 1024) as Hs2.
  { unfold s2. change 0x3ff with (N.ones 10). rewrite N.land_ones.
    change (2 ^ 10) with 1024.
    change 0xdc00 with (N.shiftl 55 10) at 1. rewrite lor_shiftl_low by done.
    done. }
  split; [done|]. split; [done|]. rewrite Hs1, Hs2.
  rewrite (N.add_comm 0xd800), (N.add_comm 0xdc00), !N.add_sub.
  rewrite lor_shiftl_low by done. change (2 ^ 10) with 1024.
  pose proof (N.div_mod n 1024 ltac:(lia)) as Hdm.
  generalize dependent (n / 1024). generalize dependent (n mod 1024).
  intros lo Hlo _ hi Hhi _ Hdm. unfold n in Hdm. lia.
Qed.
End hex.

Section strings.
Implicit Types (s t rest : pystr) (c u : N).

Lemma scan_plain c t :
  c ≠ 34 → c ≠ 92 → scan_string (c :: t) = push c (scan_string t).
Proof.
  intros H1 H2. simpl.
  by rewrite (proj2 (N.eqb_neq c 34)), (proj2 (N.eqb_neq c 92)).
Qed.

Lemma scan_short e c t :
  e ≠ 117 → unescape e = Some c →
  scan_string (92 :: e :: t) = push c (scan_string t).
Proof.
  intros H1 H2. simpl. rewrite (proj2 (N.eqb_neq e 117)) by done.
  by rewrite H2.
Qed.

Lemma scan_lone h1 h2 h3 h4 t u :
  unhex4 h1 h2 h3 h4 = Some u →
  is_high u && low_ahead t = false →
  scan_string (92 :: 117 :: h1 :: h2 :: h3 :: h4 :: t) = push u (scan_string t).
Proof.
  intros Hu Hlone.
  change (scan_string (92 :: 117 :: h1 :: h2 :: h3 :: h4 :: t))
    with (match unhex4 h1 h2 h3 h4 with
          | None => None
          | Some u =>
              let lone := push u (scan_string t) in
              if is_high u then
                match t with
                | b :: x :: g1 :: g2 :: g3 :: g4 :: t12 =>
                    if (b =? 92) && (x =? 117) then
                      match unhex4 g1 g2 g3 g4 with
                      | Some u2 =>
                          if is_low u2 then
                            push (0x10000 + N.lor (N.shiftl (u - 0xd800) 10)
                                                  (u2 - 0xdc00))
                                 (scan_string t12)
                          else lone
                      | None => lone
                      end
                    else lone
                | _ => lone
                end
              else lone
          end).
  rewrite Hu. cbv zeta. destruct (is_high u); [|done]. simpl in Hlone.
  destruct t as [|b [|x [|g1 [|g2 [|g3 [|g4 t12]]]]]]; try done.
  unfold low_ahead in Hlone.
  destruct ((b =? 92) && (x =? 117)); [|done]. simpl in Hlone.
  destruct (unhex4 g1 g2 g3 g4); [|done]. by rewrite Hlone.
Qed.

Lemma scan_pair h1 h2 h3 h4 g1 g2 g3 g4 t u u2 :
  unhex4 h1 h2 h3 h4 = Some u → is_high u = true →
  unhex4 g1 g2 g3 g4 = Some u2 → is_low u2 = true →
  scan_string (92 :: 117 :: h1 :: h2 :: h3 :: h4
               :: 92 :: 117 :: g1 :: g2 :: g3 :: g4 :: t)
  = push (0x10000 + N.lor (N.shiftl (u - 0xd800) 10) (u2 - 0xdc00))
         (scan_string t).
Proof.
  intros Hu Hhigh Hu2 Hlow.
  change (scan_string (92 :: 117 :: h1 :: h2 :: h3 :: h4
                       :: 92 :: 117 :: g1 :: g2 :: g3 :: g4 :: t))
    with (match unhex4 h1 h2 h3 h4 with
          | None => None
          | Some u =>
              let lone :=
                push u (scan_string (92 :: 117 :: g1 :: g2 :: g3 :: g4 :: t)) in
              if is_high u then
                match unhex4 g1 g2 g3 g4 with
                | Some u2 =>
                    if is_low u2 then
                      push (0x10000 + N.lor (N.shiftl (u - 0xd800) 10)
                                            (u2 - 0xdc00))
                           (scan_string t)
                    else lone
                | None => lone
                end
              else lone
          end).
  by rewrite Hu, Hhigh, Hu2, Hlow.
Qed.

Lemma encode_char_encoded c : c < 0x110000 → encoded c (encode_char c).
Proof.
  intros Hc. unfold encode_char.
  destruct (N.eqb_spec c 34) as [->|?]; [by apply (enc_short _ 34)|].
  destruct (N.eqb_spec c 92) as [->|?]; [by apply (enc_short _ 92)|].
  destruct (N.eqb_spec c 10) as [->|?]; [by apply (enc_short _ 110)|].
  destruct (N.eqb_spec c 13) as [->|?]; [by apply (enc_short _ 114)|].
  destruct (N.eqb_spec c 9) as [->|?]; [by apply (enc_short _ 116)|].
  destruct (N.eqb_spec c 8) as [->|?]; [by apply (enc_short _ 98)|].
  destruct (N.eqb_spec c 12) as [->|?]; [by apply (enc_short _ 102)|].
  destruct (N.leb_spec 32 c); simpl.
  - destruct (N.leb_spec c 126); [by apply enc_plain|].
    destruct (N.ltb_spec c 0x10000); [by apply enc_escape|].
    destruct (surrogates c ltac:(lia)) as (-> & -> & Hc').
    rewrite (N.add_comm 0xd800), (N.add_comm 0xdc00), !N.add_sub in Hc'.
    apply enc_pair; [apply N.Div0.div_lt_upper_bound; lia | apply N.mod_lt; lia | done].
  - destruct (N.ltb_spec c 0x10000); [by apply enc_escape | lia].
Qed.

Lemma scan_escape_u u t :
  u < 0x10000 → is_high u && low_ahead t = false →
  scan_string (escape_u u ++ t) = push u (scan_string t).
Proof.
  intros Hu Hlone. unfold escape_u.
  pose proof (unhex4_hex4 u t Hu) as H.
  change ((92 :: 117 :: hex4 u) ++ t) with (92 :: 117 :: (hex4 u ++ t)).
  destruct (hex4 u ++ t) as [|h1 [|h2 [|h3 [|h4 t']]]]; try done.
  destruct H as [H ->]. by apply scan_lone.
Qed.

Lemma low_ahead_escape_u u t :
  u < 0x10000 → low_ahead (escape_u u ++ t) = is_low u.
Proof.
  intros Hu. unfold escape_u.
  pose proof (unhex4_hex4 u t Hu) as H.
  change ((92 :: 117 :: hex4 u) ++ t) with (92 :: 117 :: (hex4 u ++ t)).
  destruct (hex4 u ++ t) as [|h1 [|h2 [|h3 [|h4 t']]]]; try done.
  destruct H as [H ->]. unfold low_ahead. by rewrite H.
Qed.

Lemma low_ahead_other b t : b ≠ 92 → low_ahead (b :: t) = false.
Proof.
  intros Hb. unfold low_ahead.
  destruct t as [|x [|g1 [|g2 [|g3 [|g4 t]]]]]; try done.
  by rewrite (proj2 (N.eqb_neq b 92)).
Qed.

Lemma low_ahead_short e t : e ≠ 117 → low_ahead (92 :: e :: t) = false.
Proof.
  intros He. unfold low_ahead.
  destruct t as [|g1 [|g2 [|g3 [|g4 t]]]]; try done.
  by rewrite (proj2 (N.eqb_neq e 117)), andb_false_r.
Qed.

(** What follows a code point in the body of a string does not read as
    the escape of a low surrogate, unless the next code point is one. *)
Lemma low_ahead_body s rest :
  is_text s = true →
  low_ahead (flat_map encode_char s ++ 34 :: rest)
  = match s with c :: _ => is_low c | [] => false end.
Proof.
  destruct s as [|c s]; intros Hs; [by apply low_ahead_other|].
  simpl in Hs. apply andb_prop in Hs as [[Hc _]%andb_prop _].
  apply N.ltb_lt in Hc.
  change (flat_map encode_char (c :: s)) with (encode_char c ++ flat_map encode_char s).
  rewrite <- app_assoc.
  destruct (encode_char_encoded c Hc) as [e He Hun| Hq Hb Hr | Hu | hi lo Hhi Hlo Hpair].
  - cbn [app]. rewrite low_ahead_short by done. symmetry. apply not_true_is_false.
    intros [H1 H2]%andb_prop. apply N.leb_le in H1.
    unfold unescape in Hun. repeat case_match; simplify_eq; lia.
  - cbn [app]. rewrite low_ahead_other by done. symmetry. apply not_true_is_false.
    intros [H1 H2]%andb_prop. apply N.leb_le in H1. lia.
  - by apply low_ahead_escape_u.
  - rewrite <- app_assoc, low_ahead_escape_u by lia.
    transitivity false.
    + apply not_true_is_false. intros [H1 H2]%andb_prop. apply N.leb_le in H1. lia.
    + symmetry. apply not_true_is_false. intros [H1 H2]%andb_prop.
      apply N.leb_le in H2. rewrite lor_shiftl_low in Hpair by done. lia.
Qed.

Lemma scan_string_body s rest :
  is_text s = true →
  scan_string (flat_map encode_char s ++ 34 :: rest) = Some (s, rest).
Proof.
  induction s as [|c s IH]; intros Hs; [done|].
  pose proof (low_ahead_body s rest) as Hahead.
  simpl in Hs. apply andb_prop in Hs as [[Hc Hpair]%andb_prop Hs].
  apply N.ltb_lt in Hc. specialize (IH Hs). specialize (Hahead Hs).
  change (flat_map encode_char (c :: s)) with (encode_char c ++ flat_map encode_char s).
  rewrite <- app_assoc.
  destruct (encode_char_encoded c Hc) as [e He Hun| Hq Hb Hr | Hu | hi lo Hhi Hlo Hc'].
  - cbn [app]. by rewrite (scan_short e c), IH.
  - cbn [app]. by rewrite scan_plain, IH.
  - rewrite scan_escape_u, IH; [done.. |].
    rewrite Hahead. by apply negb_true_iff in Hpair.
  - rewrite <- app_assoc. unfold escape_u at 1 2.
    pose proof (unhex4_hex4 (0xd800 + hi)
                  (escape_u (0xdc00 + lo) ++ flat_map encode_char s ++ 34 :: rest)
                  ltac:(lia)) as H1.
    pose proof (unhex4_hex4 (0xdc00 + lo) (flat_map encode_char s ++ 34 :: rest)
                  ltac:(lia)) as H2.
    unfold escape_u in H1.
    change ((92 :: 117 :: hex4 (0xd800 + hi))
            ++ (92 :: 117 :: hex4 (0xdc00 + lo))
            ++ flat_map encode_char s ++ 34 :: rest)
      with (92 :: 117 :: (hex4 (0xd800 + hi)
                          ++ (92 :: 117 :: hex4 (0xdc00 + lo))
                          ++ flat_map encode_char s ++ 34 :: rest)).
    destruct (hex4 (0xd800 + hi) ++ _) as [|h1 [|h2 [|h3 [|h4 t']]]]; try done.
    destruct H1 as [H1 ->].
    change ((92 :: 117 :: hex4 (0xdc00 + lo)) ++ flat_map encode_char s ++ 34 :: rest)
      with (92 :: 117 :: (hex4 (0xdc00 + lo) ++ flat_map encode_char s ++ 34 :: rest)).
    destruct (hex4 (0xdc00 + lo) ++ _) as [|g1 [|g2 [|g3 [|g4 t']]]]; try done.
    destruct H2 as [H2 ->].
    rewrite (scan_pair _ _ _ _ _ _ _ _ _ _ _ H1 ltac:(unfold is_high; apply andb_true_intro; split; apply N.leb_le; lia) H2
               ltac:(unfold is_low; apply andb_true_intro; split; apply N.leb_le; lia)).
    rewrite IH, (N.add_comm 0xd800), (N.add_comm 0xdc00), !N.add_sub, Hc'. done.
Qed.

Lemma parse_string_encoded s rest :
  is_text s = true →
  parse_string (encode_basestring_ascii s ++ rest) = Some (s, rest).
Proof.
  intros Hs. unfold parse_string, encode_basestring_ascii. simpl.
  rewrite <- app_assoc. simpl. by rewrite scan_string_body.
Qed.
End strings.

Section records.
Implicit Types (s t rest lit : pystr) (l : list pystr) (d : details).

Lemma hexdigit_printable n : n < 16 → printable (hexdigit n).
Proof. unfold printable, hexdigit. intros Hn. case_match; lia. Qed.

Lemma escape_u_printable n : Forall printable (escape_u n).
Proof.
  unfold escape_u, hex4.
  repeat (constructor; [first [by unfold printable
                              | apply hexdigit_printable, N.mod_lt; lia]|]).
  constructor.
Qed.

Lemma encode_char_printable c : Forall printable (encode_char c).
Proof.
  unfold encode_char.
  repeat (destruct (_ =? _); [repeat constructor; unfold printable; lia|]).
  destruct (N.leb_spec 32 c); cbn [andb].
  - destruct (N.leb_spec c 126); [by repeat constructor|].
    destruct (_ <? _); [apply escape_u_printable|].
    apply Forall_app; split; apply escape_u_printable.
  - destruct (_ <? _); [apply escape_u_printable|].
    apply Forall_app; split; apply escape_u_printable.
Qed.

Lemma encode_basestring_ascii_printable s :
  Forall printable (encode_basestring_ascii s).
Proof.
  unfold encode_basestring_ascii. constructor; [unfold printable; lia|].
  apply Forall_app. split; [|repeat constructor; unfold printable; lia].
  induction s as [|c s IH]; [constructor|]. simpl.
  apply Forall_app. split; [apply encode_char_printable | done].
Qed.

Lemma py_printable (x : string) :
  forallb (fun c => (32 <=? c) && (c <=? 126)) (py x) = true →
  Forall printable (py x).
Proof.
  intros H. apply Forall_forall. intros c Hc.
  rewrite forallb_forall in H. apply list_elem_of_In, H in Hc.
  apply andb_prop in Hc as [H1 H2]. apply N.leb_le in H1, H2. done.
Qed.

Lemma join_comma_cons (c : pystr) (chunks : list pystr) :
  join_comma (c :: chunks) = c ++ flat_map (fun x => py ", " ++ x) chunks.
Proof.
  revert c. induction chunks as [|c' chunks IH]; intros c.
  - simpl. by rewrite app_nil_r.
  - change (join_comma (c :: c' :: chunks))
      with (c ++ py ", " ++ join_comma (c' :: chunks)).
    by rewrite IH.
Qed.

Lemma join_comma_printable (chunks : list pystr) :
  Forall (Forall printable) chunks → Forall printable (join_comma chunks).
Proof.
  destruct chunks as [|c chunks]; [constructor|]. rewrite join_comma_cons.
  intros [Hc Hall]%Forall_cons. apply Forall_app. split; [done|].
  induction Hall as [|x chunks Hx _ IH]; [constructor|]. simpl.
  repeat (constructor; [unfold printable; lia|]).
  apply Forall_app. by split.
Qed.

Lemma dumps_value_printable v : Forall printable (dumps_value v).
Proof.
  destruct v as [s|[]|l]; simpl.
  - apply encode_basestring_ascii_printable.
  - by apply py_printable.
  - by apply py_printable.
  - constructor; [unfold printable; lia|]. apply Forall_app. split.
    + apply join_comma_printable, Forall_fmap, Forall_forall.
      intros s _. apply encode_basestring_ascii_printable.
    + by apply py_printable.
Qed.

Lemma json_dumps_printable record : Forall printable (json_dumps record).
Proof.
  unfold json_dumps. apply Forall_app. split; [by apply py_printable|].
  apply Forall_app. split; [|by apply py_printable].
  apply join_comma_printable, Forall_fmap, Forall_forall.
  intros [key v] _. cbv beta iota. apply Forall_app. split.
  - apply encode_basestring_ascii_printable.
  - apply Forall_app. split; [by apply py_printable | apply dumps_value_printable].
Qed.

Lemma lines_terminated (l text : pystr) :
  10 ∉ l → lines (l ++ 10 :: text) = l :: lines text.
Proof.
  induction l as [|c l IH]; intros Hl; [done|].
  apply not_elem_of_cons in Hl as [Hc Hl]. simpl.
  rewrite (proj2 (N.eqb_neq c 10)) by done. by rewrite IH.
Qed.

Lemma lines_unlines (ls : list pystr) :
  Forall (fun x : pystr => 10 ∉ x) ls → lines (unlines ls) = ls.
Proof.
  induction 1 as [|x ls Hl _ IH]; [done|]. unfold unlines. simpl.
  rewrite <- app_assoc. simpl. rewrite lines_terminated by done.
  by f_equal.
Qed.

Lemma printable_no_newline (l : pystr) : Forall printable l → 10 ∉ l.
Proof.
  intros H Hin. rewrite Forall_forall in H. apply H in Hin.
  unfold printable in Hin. lia.
Qed.

Lemma jsonl_unlines ra : jsonl ra = unlines (line_of <$> map_to_list ra).
Proof.
  unfold jsonl, unlines. induction (map_to_list ra) as [|[p d] es IH]; [done|].
  rewrite fmap_cons. cbn [flat_map]. by rewrite IH.
Qed.

Lemma lines_jsonl ra : lines (jsonl ra) = line_of <$> map_to_list ra.
Proof.
  rewrite jsonl_unlines. apply lines_unlines, Forall_fmap, Forall_forall.
  intros e _. apply printable_no_newline, json_dumps_printable.
Qed.

Lemma expect_app lit t : expect lit (lit ++ t) = Some t.
Proof. induction lit as [|c lit IH]; [done|]. simpl. by rewrite N.eqb_refl. Qed.

Lemma expect_quote lit s t :
  lit ≠ [] → lit !! 0%nat ≠ Some 34 →
  expect lit (encode_basestring_ascii s ++ t) = None.
Proof.
  destruct lit as [|c lit]; [done|]. intros _ Hc. simpl.
  rewrite (proj2 (N.eqb_neq c 34)); [done|]. intros ->. by apply Hc.
Qed.

Lemma json_dumps_record_of (p : pystr) d :
  json_dumps (record_of p d)
  = (py "{" ++ 34 :: py "file_path" ++ 34 :: py ": ")
    ++ encode_basestring_ascii p ++ entry_tail d.
Proof.
  unfold json_dumps, record_of, items, entry_tail.
  destruct d as [[l|] [b|]]; cbn [sql_statements scanned app map];
    rewrite join_comma_cons; cbn [flat_map];
    change (encode_basestring_ascii (py "file_path"))
      with (34 :: py "file_path" ++ [34]);
    change (encode_basestring_ascii (py "sql_statements"))
      with (34 :: py "sql_statements" ++ [34]);
    change (encode_basestring_ascii (py "scanned"))
      with (34 :: py "scanned" ++ [34]);
    unfold field; cbn [dumps_value];
    repeat rewrite <- ?app_assoc, <- ?app_comm_cons, ?app_nil_r;
    reflexivity.
Qed.

Lemma parse_more_items fuel l rest :
  Forall (fun x => is_text x = true) l → (length l ≤ fuel)%nat →
  parse_more fuel (flat_map (fun x => py ", " ++ x) (encode_basestring_ascii <$> l)
                   ++ py "]" ++ rest)
  = Some (l, rest).
Proof.
  intros Hl. revert fuel. induction Hl as [|s l Hs _ IH]; intros fuel Hfuel.
  - by destruct fuel.
  - destruct fuel as [|fuel]; [simpl in Hfuel; lia|].
    assert (length l ≤ fuel)%nat as Hfuel' by (simpl in Hfuel; lia).
    rewrite fmap_cons. cbn [flat_map]. rewrite <- !app_assoc.
    change (parse_more (S fuel) (py ", " ++ ?t))
      with ('(x, t') ← parse_string t;
            '(l', r) ← parse_more fuel t';
            Some (x :: l', r)).
    rewrite parse_string_encoded by done. simpl.
    rewrite IH by done. done.
Qed.

Lemma length_items_bound l rest :
  (length l
   ≤ length (flat_map (fun x => py ", " ++ x) (encode_basestring_ascii <$> l)
             ++ rest))%nat.
Proof.
  induction l as [|s l IH]; [simpl; lia|].
  rewrite fmap_cons. cbn [flat_map]. rewrite <- !app_assoc, !length_app.
  rewrite length_app in IH. change (length (py ", ")) with 2%nat.
  cbn [length]. lia.
Qed.

Lemma parse_array_dumps l rest :
  Forall (fun x => is_text x = true) l →
  parse_array (dumps_value (VList l) ++ rest) = Some (l, rest).
Proof.
  intros Hl. cbn [dumps_value]. destruct Hl as [|s l Hs Hl]; [done|].
  change (map encode_basestring_ascii (s :: l))
    with (encode_basestring_ascii s :: (encode_basestring_ascii <$> l)).
  rewrite join_comma_cons, <- !app_assoc.
  change (parse_array (py "[" ++ ?t))
    with (match expect (py "]") t with
          | Some r => Some ([], r)
          | None =>
              '(x, t') ← parse_string t;
              '(l', r) ← parse_more (length t') t';
              Some (x :: l', r)
          end).
  rewrite expect_quote by done.
  rewrite parse_string_encoded by done. cbn [mbind option_bind].
  rewrite parse_more_items; [done | done | apply length_items_bound].
Qed.

Lemma parse_tail_scanned o b :
  parse_tail o (field "scanned" ++ dumps_value (VBool b) ++ py "}")
  = Some {| sql_statements := o; scanned := Some b |}.
Proof. by destruct b. Qed.

Lemma parse_tail_end o :
  parse_tail o (py "}") = Some {| sql_statements := o; scanned := None |}.
Proof. done. Qed.

Lemma parse_line_line_of e : entry_text e = true → parse_line (line_of e) = Some e.
Proof.
  destruct e as [p [o b]]. unfold entry_text, line_of.
  cbn [fst snd sql_statements]. intros [Hp Hl]%andb_prop.
  rewrite json_dumps_record_of. unfold parse_line.
  rewrite expect_app. cbn [mbind option_bind].
  rewrite parse_string_encoded by done. cbn [mbind option_bind].
  unfold entry_tail. cbn [sql_statements scanned].
  destruct o as [l|].
  - rewrite <- app_assoc, expect_app.
    rewrite parse_array_dumps.
    + cbn [mbind option_bind]. destruct b as [b|].
      * by rewrite <- app_assoc, parse_tail_scanned.
      * by rewrite parse_tail_end.
    + apply Forall_forall. intros x Hx. rewrite forallb_forall in Hl.
      by apply Hl, list_elem_of_In.
  - destruct b as [b|]; cbn [app].
    + rewrite <- app_assoc.
      change (expect (field "sql_statements") (field "scanned" ++ ?t)) with (@None pystr).
      cbn [mbind option_bind]. by rewrite parse_tail_scanned.
    + done.
Qed.
End records.

Section export.
Implicit Types (st : State) (ra : gmap pystr details) (text : pystr).

Lemma text_store_entries ra :
  text_store ra = true →
  Forall (fun e => parse_line (line_of e) = Some e) (map_to_list ra).
Proof.
  unfold text_store. intros H. apply Forall_forall. intros e Hin.
  apply parse_line_line_of. rewrite forallb_forall in H.
  by apply H, list_elem_of_In.
Qed.

Lemma parse_lines_permuted ra (ls : list pystr) :
  text_store ra = true →
  ls ≡ₚ line_of <$> map_to_list ra →
  parse_jsonl (unlines ls) = Some ra.
Proof.
  intros Htext Hperm.
  apply Permutation.Permutation_map_inv in Hperm as (es & -> & Hes).
  change (map line_of es) with (line_of <$> es).
  unfold parse_jsonl. rewrite lines_unlines.
  - rewrite (mapM_fmap_Forall_Some parse_line line_of es).
    + cbn [mbind option_bind]. f_equal. rewrite <- (list_to_map_to_list ra).
      symmetry. apply list_to_map_proper; [apply NoDup_fst_map_to_list | done].
    + rewrite <- Hes. by apply text_store_entries.
  - apply Forall_fmap, Forall_forall. intros e _.
    apply printable_no_newline, json_dumps_printable.
Qed.

(** C6: the report has one line per entry, the line written for that
    entry, and the report of the empty mapping is empty; when the paths
    and statements are text, each line reads back as the path, statements
    and flag of its entry, and the lines in any order read back as the
    mapping. *)
Theorem export_round_trip cwd denied st name ra :
  repo_name st = Some name → name ≠ [] →
  repository_analysis st = Some ra →
  denied (path_join cwd (name ++ py "_analysis.jsonl")) = None →
  ∃ r text,
    generate_repository_analysis_jsonl cwd denied st = (r, Some text)
    ∧ status r = success
    ∧ lines text = line_of <$> map_to_list ra
    ∧ length (lines text) = size ra
    ∧ (ra = ∅ → text = [])
    ∧ (text_store ra = true →
       mapM parse_line (lines text) = Some (map_to_list ra)
       ∧ parse_jsonl text = Some ra
       ∧ ∀ ls, ls ≡ₚ lines text → parse_jsonl (unlines ls) = Some ra).
Proof.
  intros Hname Hne Hra Hopen. eexists _, (jsonl ra). split.
  { unfold generate_repository_analysis_jsonl. rewrite Hname.
    destruct name as [|c name]; [done|]. by rewrite Hra, Hopen. }
  split; [done|]. rewrite lines_jsonl. split; [done|].
  split; [by rewrite length_fmap, length_map_to_list|].
  split.
  - intros ->. unfold jsonl. by rewrite map_to_list_empty.
  - intros Htext.
    split; [by apply mapM_fmap_Forall_Some, text_store_entries|]. split.
    + rewrite jsonl_unlines. by apply parse_lines_permuted.
    + intros ls Hls. by apply parse_lines_permuted.
Qed.

(** The statement of one mapping is a high surrogate followed by a low
    surrogate, that of the other the code point the pair stands for: the
    two reports are the same text. *)
Lemma no_reader_reconstructs_every_store : ¬ ∃ parse, reconstructs parse.
Proof.
  intros [parse H].
  set (ra1 := recorded [[0xd83d; 0xde00]] (py "a.py") ∅).
  set (ra2 := recorded [[0x1f600]] (py "a.py") ∅).
  assert (jsonl ra1 = jsonl ra2) as Htext by (vm_compute; reflexivity).
  assert (parse (jsonl ra1) = Some ra1) as H1.
  { eapply (H (py "/work") (fun _ => None) (session (Some ra1))); reflexivity. }
  assert (parse (jsonl ra2) = Some ra2) as H2.
  { eapply (H (py "/work") (fun _ => None) (session (Some ra2))); reflexivity. }
  rewrite Htext, H2 in H1. apply (inj Some) in H1.
  apply (f_equal (fun m : gmap pystr details => m !! py "a.py")) in H1.
  rename H1 into Heq.
  vm_compute in Heq. discriminate.
Qed.

Lemma export_round_trip_witness :
  ∃ r text,
    generate_repository_analysis_jsonl
      (py "/work") (fun _ => None)
      (session (Some (recorded [py "SELECT 1"] (py "b.sql")
                        (recorded [] (py "a.py") ∅))))
    = (r, Some text)
    ∧ status r = success
    ∧ lines text
      = line_of <$> map_to_list (recorded [py "SELECT 1"] (py "b.sql")
                                   (recorded [] (py "a.py") ∅))
    ∧ length (lines text)
      = size (recorded [py "SELECT 1"] (py "b.sql") (recorded [] (py "a.py") ∅))
    ∧ (recorded [py "SELECT 1"] (py "b.sql") (recorded [] (py "a.py") ∅) = ∅ →
       text = [])
    ∧ (text_store (recorded [py "SELECT 1"] (py "b.sql")
                     (recorded [] (py "a.py") ∅)) = true →
       mapM parse_line (lines text)
       = Some (map_to_list (recorded [py "SELECT 1"] (py "b.sql")
                              (recorded [] (py "a.py") ∅)))
       ∧ parse_jsonl text
         = Some (recorded [py "SELECT 1"] (py "b.sql")
                   (recorded [] (py "a.py") ∅))
       ∧ ∀ ls, ls ≡ₚ lines text →
               parse_jsonl (unlines ls)
               = Some (recorded [py "SELECT 1"] (py "b.sql")
                         (recorded [] (py "a.py") ∅))).
Proof.
  apply (export_round_trip _ _ _ (py "demo"));
    [reflexivity | discriminate | reflexivity..].
Defined.

(** The report of the two entries [a.py], without statements, and [b.sql],
    with the statement [SELECT 1], both scanned. *)
Example export_two_entries :
  lines (jsonl (recorded [py "SELECT 1"] (py "b.sql") (recorded [] (py "a.py") ∅)))
  = [123 :: 34 :: py "file_path" ++ 34 :: py ": " ++ 34 :: py "a.py" ++ 34
     :: py ", " ++ 34 :: py "sql_statements" ++ 34 :: py ": [], "
     ++ 34 :: py "scanned" ++ 34 :: py ": true}";
     123 :: 34 :: py "file_path" ++ 34 :: py ": " ++ 34 :: py "b.sql" ++ 34
     :: py ", " ++ 34 :: py "sql_statements" ++ 34 :: py ": [" ++ 34
     :: py "SELECT 1" ++ 34 :: py "], "
     ++ 34 :: py "scanned" ++ 34 :: py ": true}"]
  ∧ text_store (recorded [py "SELECT 1"] (py "b.sql") (recorded [] (py "a.py") ∅))
    = true.
Proof. split; vm_compute; reflexivity. Qed.
End export.

(** * Sequences of writes *)

Section writes.
Implicit Types (st : State) (ra : gmap pystr details) (p q : pystr)
  (d : details) (s : list pystr) (w : write) (ws : list write).

Lemma call_seeded st ra w :
  repository_analysis st = Some ra →
  (call w st).1 = with_analysis st (written w ra).
Proof.
  intros Hra. destruct w as [p s|p]; simpl.
  - by rewrite (save_sql_statements_seeded st ra).
  - by rewrite (mark_file_as_scanned_seeded st ra).
Qed.

Lemma call_unseeded st w :
  repository_analysis st = None → (call w st).1 = st.
Proof.
  intros Hra. destruct w as [p s|p]; simpl;
    unfold save_sql_statements, mark_file_as_scanned; by rewrite Hra.
Qed.

Lemma with_analysis_twice st ra ra' :
  with_analysis (with_analysis st ra) ra' = with_analysis st ra'.
Proof. done. Qed.

Lemma run_seeded ws st ra :
  repository_analysis st = Some ra →
  run ws st = with_analysis st (foldl (fun ra w => written w ra) ra ws).
Proof.
  revert st ra. induction ws as [|w ws IH]; intros st ra Hra; simpl.
  - destruct st. simpl in Hra. by subst.
  - rewrite (call_seeded st ra) by done.
    by rewrite (IH _ (written w ra)), with_analysis_twice.
Qed.

Lemma lookup_written_target w ra :
  ∃ d, written w ra !! target w = Some d ∧ scanned d = Some true.
Proof.
  destruct w as [p s|p]; simpl; unfold recorded, marked;
    rewrite lookup_insert_eq; eauto.
Qed.

Lemma lookup_written_other w ra q :
  q ≠ target w → written w ra !! q = ra !! q.
Proof.
  intros Hq. destruct w as [p s|p]; simpl in *; unfold recorded, marked;
    by rewrite lookup_insert_ne.
Qed.

Lemma written_keeps_scanned w ra q d :
  ra !! q = Some d → scanned d = Some true →
  ∃ d', written w ra !! q = Some d' ∧ scanned d' = Some true.
Proof.
  intros Hq Hd. destruct (decide (q = target w)) as [->|Hne].
  - apply lookup_written_target.
  - exists d. by rewrite lookup_written_other.
Qed.

Lemma writes_keep_scanned ws ra q d :
  ra !! q = Some d → scanned d = Some true →
  ∃ d', foldl (fun ra w => written w ra) ra ws !! q = Some d'
        ∧ scanned d' = Some true.
Proof.
  revert ra d. induction ws as [|w ws IH]; intros ra d Hq Hd; simpl; [by eauto|].
  destruct (written_keeps_scanned w ra q d Hq Hd) as (d' & Hq' & Hd').
  by eapply IH.
Qed.

Lemma writes_keep_keys ws ra q :
  is_Some (ra !! q) → is_Some (foldl (fun ra w => written w ra) ra ws !! q).
Proof.
  revert ra. induction ws as [|w ws IH]; intros ra Hq; simpl; [done|].
  apply IH. destruct (decide (q = target w)) as [->|Hne].
  - destruct (lookup_written_target w ra) as (d & -> & _). by eauto.
  - by rewrite lookup_written_other.
Qed.

Lemma writes_scan_targets ws ra q :
  q ∈ target <$> ws →
  ∃ d, foldl (fun ra w => written w ra) ra ws !! q = Some d
       ∧ scanned d = Some true.
Proof.
  revert ra. induction ws as [|w ws IH]; intros ra Hq; simpl.
  - by apply elem_of_nil in Hq.
  - rewrite fmap_cons in Hq. apply elem_of_cons in Hq as [->|Hq].
    + destruct (lookup_written_target w ra) as (d & Hd & Hs).
      by eapply writes_keep_scanned.
    + by apply IH.
Qed.

Lemma writes_other ws ra q :
  q ∉ target <$> ws →
  foldl (fun ra w => written w ra) ra ws !! q = ra !! q.
Proof.
  revert ra. induction ws as [|w ws IH]; intros ra Hq; simpl; [done|].
  rewrite fmap_cons in Hq. apply not_elem_of_cons in Hq as [Hne Hq].
  by rewrite IH, lookup_written_other.
Qed.

(** X1: recording statements for a path the mapping holds replaces its
    statements by the new ones and sets its flag; the mapping keeps its
    size and every other entry. *)
Theorem save_sql_statements_overwrites st ra p s d :
  repository_analysis st = Some ra →
  ra !! p = Some d →
  ∃ ra',
    save_sql_statements p s st
    = (with_analysis st ra', reply success (py "statement saved"))
    ∧ ra' !! p = Some {| sql_statements := Some s; scanned := Some true |}
    ∧ size ra' = size ra
    ∧ ∀ q, q ≠ p → ra' !! q = ra !! q.
Proof.
  intros Hra Hp. exists (recorded s p ra). split; [|split; [|split]].
  - by apply save_sql_statements_seeded.
  - apply lookup_insert_eq.
  - unfold recorded. by erewrite map_size_insert_Some.
  - intros q Hq. by apply lookup_insert_ne.
Qed.

(** X2: marking a path after recording its statements changes nothing,
    and recording after marking gives the state of recording alone. *)
Theorem mark_and_save_compose st p s :
  (mark_file_as_scanned p (save_sql_statements p s st).1).1
  = (save_sql_statements p s st).1
  ∧ (save_sql_statements p s (mark_file_as_scanned p st).1).1
    = (save_sql_statements p s st).1.
Proof.
  change (save_sql_statements p s) with (call (Save p s)).
  change (mark_file_as_scanned p) with (call (Mark p)).
  destruct (repository_analysis st) as [ra|] eqn:Hra.
  - rewrite (call_seeded st ra (Save p s)), (call_seeded st ra (Mark p)) by done.
    rewrite (call_seeded _ (recorded s p ra) (Mark p)) by done.
    rewrite (call_seeded _ (marked p ra) (Save p s)) by done.
    rewrite !with_analysis_twice. simpl. unfold recorded, marked.
    rewrite lookup_insert_eq. simpl. by rewrite !insert_insert_eq.
  - by rewrite !call_unseeded by (by rewrite ?call_unseeded).
Qed.

(** X3: marking the same path a second time changes nothing: the state
    and the answer are those of the first call. *)
Theorem mark_file_as_scanned_idempotent st p :
  mark_file_as_scanned p (mark_file_as_scanned p st).1
  = mark_file_as_scanned p st.
Proof.
  destruct (repository_analysis st) as [ra|] eqn:Hra.
  - rewrite (mark_file_as_scanned_seeded st ra) by done. simpl.
    rewrite (mark_file_as_scanned_seeded _ (marked p ra)) by done.
    unfold with_analysis, marked. simpl.
    rewrite lookup_insert_eq. simpl. by rewrite insert_insert_eq.
  - unfold mark_file_as_scanned. rewrite Hra. simpl. by rewrite Hra.
Qed.

(** X4: two calls of the writers for different paths give the same state
    in either order. *)
Theorem writes_commute st w1 w2 :
  target w1 ≠ target w2 →
  (call w2 (call w1 st).1).1 = (call w1 (call w2 st).1).1.
Proof.
  intros Hne. destruct (repository_analysis st) as [ra|] eqn:Hra.
  - rewrite (call_seeded st ra w1), (call_seeded st ra w2) by done.
    rewrite (call_seeded _ (written w1 ra) w2), (call_seeded _ (written w2 ra) w1)
      by done.
    rewrite !with_analysis_twice. f_equal.
    destruct w1 as [p1 s1|p1], w2 as [p2 s2|p2]; simpl in *;
      unfold recorded, marked; rewrite ?lookup_insert_ne by done;
      by apply insert_insert_ne.
  - by rewrite !call_unseeded by (by rewrite ?call_unseeded).
Qed.

(** X5: no sequence of calls of the writers removes an entry or takes
    back a flag: an entry that is scanned stays scanned. *)
Theorem writes_never_unscan ws st ra q d :
  repository_analysis st = Some ra →
  ra !! q = Some d →
  ∃ ra' d',
    repository_analysis (run ws st) = Some ra'
    ∧ ra' !! q = Some d'
    ∧ (scanned d = Some true → scanned d' = Some true).
Proof.
  intros Hra Hq. rewrite (run_seeded ws st ra) by done. simpl.
  destruct (writes_keep_keys ws ra q) as [d' Hd']; [by eauto|].
  eexists _, d'. split; [reflexivity|]. split; [done|]. intros Hd.
  destruct (writes_keep_scanned ws ra q d Hq Hd) as (d'' & Hq'' & Hs).
  congruence.
Qed.

Lemma writes_scan_all ws ra :
  (∀ q, is_Some (ra !! q) → q ∈ target <$> ws) →
  ∀ q d, foldl (fun ra w => written w ra) ra ws !! q = Some d →
         scanned d = Some true.
Proof.
  intros Hall q d Hq.
  destruct (decide (q ∈ target <$> ws)) as [Hin|Hnotin].
  - destruct (writes_scan_targets ws ra q Hin) as (d' & Hq' & Hs). congruence.
  - rewrite writes_other in Hq by done. exfalso. apply Hnotin, Hall. by eauto.
Qed.

Lemma all_scanned_answer st ra :
  repository_analysis st = Some ra →
  (∀ q d, ra !! q = Some d → scanned d = Some true) →
  status (are_all_files_scanned st) = success
  ∧ all_files_scanned (are_all_files_scanned st) = Some true.
Proof.
  intros Hra Hall. unfold are_all_files_scanned. rewrite Hra.
  case_decide; [done|].
  destruct (first_unscanned (map_to_list ra)) as [k|] eqn:Hf; [|done].
  apply (proj2 (first_unscanned_all ra)) in Hall. congruence.
Qed.

(** X6: once every path of the mapping has been the target of a call of
    a writer, the completion check answers [True]. *)
Theorem all_scanned_after_writes ws st ra :
  repository_analysis st = Some ra →
  (∀ q, is_Some (ra !! q) → q ∈ target <$> ws) →
  status (are_all_files_scanned (run ws st)) = success
  ∧ all_files_scanned (are_all_files_scanned (run ws st)) = Some true.
Proof.
  intros Hra Hall. rewrite (run_seeded ws st ra) by done.
  eapply all_scanned_answer; [reflexivity|]. by apply writes_scan_all.
Qed.
End writes.

(** * More on the enumeration *)

Section walk.
Implicit Types (n : node) (es : list (pystr * node)) (parts dirs : list pystr)
  (st : State) (ra : gmap pystr details) (p : pystr).





Lemma seeded_twice ra (l : list pystr) : seeded (seeded ra l) l = seeded ra l.
Proof.
  apply map_eq. intros p. rewrite !lookup_seeded. by case_decide.
Qed.


(** X9: the enumeration sets every path it finds to not scanned, without
    statements, whatever was recorded for it before, and leaves every
    other entry of the mapping as it was. *)
Theorem list_repo_files_resets fs st root es :
  repo_path st = Some root → fs root = Some (Dir es) →
  ∃ ra' r,
    list_repo_files fs st = Returns (with_analysis st ra', r)
    ∧ files r = Some (walk_files [] (Dir es))
    ∧ ∀ p, ra' !! p
           = if decide (p ∈ walk_files [] (Dir es)) then Some unscanned
             else repository_analysis st ≫= (.!! p).
Proof.
  intros Hroot Hfs. eexists _, _.
  split; [apply (list_repo_files_Dir fs st root es Hroot Hfs)|].
  split; [reflexivity|]. intros p. rewrite lookup_seeded.
  case_decide; [done|]. destruct (repository_analysis st); simpl; [done|].
  apply lookup_empty.
Qed.

(** X10: enumerating again, with the tree as it was, changes nothing: the
    second call returns the state and the answer of the first. *)
Theorem list_repo_files_idempotent fs st st' r :
  list_repo_files fs st = Returns (st', r) →
  list_repo_files fs st' = Returns (st', r).
Proof.
  unfold list_repo_files. destruct (repo_path st) as [root|] eqn:Hroot; [|done].
  destruct (fs root) as [[data|es]|] eqn:Hfs; intros [= <- <-]; simpl;
    rewrite ?Hroot, Hfs; [done| |done].
  fold (seeded (default ∅ (repository_analysis st)) (walk_files [] (Dir es))).
  fold (seeded (seeded (default ∅ (repository_analysis st)) (walk_files [] (Dir es)))
               (walk_files [] (Dir es))).
  by rewrite seeded_twice.
Qed.

(** X11: after an enumeration that found a file, the completion check
    answers [False]. *)
Theorem not_all_scanned_after_enumeration fs st st' r l :
  list_repo_files fs st = Returns (st', r) →
  files r = Some l → l ≠ [] →
  are_all_files_scanned st'
  = answer (py "Not all files have been scanned.") false success.
Proof.
  intros Hcall Hfiles Hl.
  destruct (repo_path st) as [root|] eqn:Hroot;
    [|unfold list_repo_files in Hcall; by rewrite Hroot in Hcall].
  destruct (fs root) as [[data|es]|] eqn:Hfs.
  - unfold list_repo_files in Hcall. rewrite Hroot, Hfs in Hcall.
    injection Hcall as <- <-. done.
  - rewrite (list_repo_files_Dir fs st root es Hroot Hfs) in Hcall.
    set (found := walk_files [] (Dir es)) in *.
    injection Hcall as <- <-. cbn [files] in Hfiles. injection Hfiles as <-.
    destruct found as [|p found]; [done|].
    assert (seeded (default ∅ (repository_analysis st)) (p :: found) !! p
            = Some unscanned) as Hp.
    { rewrite lookup_seeded, decide_True; [done | by left]. }
    unfold are_all_files_scanned. cbn [repository_analysis with_analysis].
    rewrite decide_False by (intros Hempty; by rewrite Hempty, lookup_empty in Hp).
    destruct (first_unscanned _) eqn:Hf; [done|].
    pose proof (proj1 (first_unscanned_all _) Hf p unscanned Hp). done.
  - unfold list_repo_files in Hcall. rewrite Hroot, Hfs in Hcall.
    injection Hcall as <- <-. done.
Qed.
End walk.

(** * More on the reader *)

Section content.
Implicit Types (s : list byte) (t : pystr) (st : State).

Lemma scalar_spec c : scalar c = true ↔ c < 0xD800 ∨ 0xDFFF < c < 0x110000.
Proof.
  unfold scalar. rewrite orb_true_iff, andb_true_iff, !N.ltb_lt. tauto.
Qed.

Lemma is_continuation_spec ch :
  is_continuation ch = true ↔ 0x80 ≤ ch < 0xC0.
Proof.
  unfold is_continuation. by rewrite andb_true_iff, N.leb_le, N.ltb_lt.
Qed.

Lemma utf8_decode_ignore_scalar_bounded (n : nat) s :
  (length s ≤ n)%nat → Forall (fun c => scalar c = true) (utf8_decode_ignore s).
Proof.
  revert s. induction n as [|n IH]; intros s Hlen.
  { destruct s; [constructor | simpl in Hlen; lia]. }
  destruct s as [|b0 s1]; [constructor|]. simpl in Hlen.
  cbn [utf8_decode_ignore]. cbv zeta.
  pose proof (to_N_bounded b0) as Hb0.
  assert (∀ s', (length s' ≤ length s1)%nat →
                Forall (fun c => scalar c = true) (utf8_decode_ignore s')) as IH'.
  { intros s' Hs'. apply IH. lia. }
  destruct (N.ltb_spec (to_N b0) 0x80) as [La|La].
  { constructor; [apply scalar_spec; lia | by apply IH']. }
  destruct (N.ltb_spec (to_N b0) 0xE0) as [Lb|Lb].
  { destruct (N.ltb_spec (to_N b0) 0xC2) as [Lc|Lc]; [by apply IH'|].
    destruct s1 as [|b1 s2]; [constructor|].
    destruct (is_continuation (to_N b1)) eqn:H1; cbn [negb]; [|by apply IH'].
    apply is_continuation_spec in H1.
    constructor; [|apply IH'; simpl; lia].
    apply scalar_spec. rewrite !N.shiftl_mul_pow2.
    change (2 ^ 6) with 64. lia. }
  destruct (N.ltb_spec (to_N b0) 0xF0) as [Ld|Ld].
  { destruct s1 as [|b1 s2]; [constructor|].
    destruct (is_continuation (to_N b1)) eqn:H1; cbn [negb orb]; [|by apply IH'].
    apply is_continuation_spec in H1.
    destruct (N.ltb_spec (to_N b1) 0xA0) as [Hlow|Hhigh].
    - destruct (N.eqb_spec (to_N b0) 0xE0) as [Le|Le]; [by apply IH'|].
      destruct s2 as [|b2 s3]; [constructor|].
      destruct (is_continuation (to_N b2)) eqn:H2; cbn [negb];
        [|apply IH'; simpl; lia].
      apply is_continuation_spec in H2.
      constructor; [|apply IH'; simpl; lia].
      apply scalar_spec. rewrite !N.shiftl_mul_pow2.
      change (2 ^ 12) with 4096. change (2 ^ 6) with 64. lia.
    - destruct (N.eqb_spec (to_N b0) 0xED) as [Le|Le]; [by apply IH'|].
      destruct s2 as [|b2 s3]; [constructor|].
      destruct (is_continuation (to_N b2)) eqn:H2; cbn [negb];
        [|apply IH'; simpl; lia].
      apply is_continuation_spec in H2.
      constructor; [|apply IH'; simpl; lia].
      apply scalar_spec. rewrite !N.shiftl_mul_pow2.
      change (2 ^ 12) with 4096. change (2 ^ 6) with 64. lia. }
  destruct (N.ltb_spec (to_N b0) 0xF5) as [Lf|Lf]; [|by apply IH'].
  destruct s1 as [|b1 s2]; [constructor|].
  destruct (is_continuation (to_N b1)) eqn:H1; cbn [negb orb]; [|by apply IH'].
  apply is_continuation_spec in H1.
  assert (
    (if to_N b1 <? 0x90 then to_N b0 =? 0xF0 else to_N b0 =? 0xF4) = false →
    Forall (fun c => scalar c = true)
      match s2 with
      | [] => []
      | b2 :: s3 =>
          if negb (is_continuation (to_N b2)) then utf8_decode_ignore s2
          else match s3 with
               | [] => []
               | b3 :: s4 =>
                   if negb (is_continuation (to_N b3)) then utf8_decode_ignore s3
                   else (N.shiftl (to_N b0) 18 + N.shiftl (to_N b1) 12
                         + N.shiftl (to_N b2) 6 + to_N b3
                         - (N.shiftl 0xF0 18 + N.shiftl 0x80 12
                            + N.shiftl 0x80 6 + 0x80))
                        :: utf8_decode_ignore s4
               end
      end) as Hfour.
  { intros Hok. destruct s2 as [|b2 s3]; [constructor|].
    destruct (is_continuation (to_N b2)) eqn:H2; cbn [negb];
      [|apply IH'; simpl; lia].
    apply is_continuation_spec in H2.
    destruct s3 as [|b3 s4]; [constructor|].
    destruct (is_continuation (to_N b3)) eqn:H3; cbn [negb];
      [|apply IH'; simpl; lia].
    apply is_continuation_spec in H3.
    constructor; [|apply IH'; simpl; lia].
    apply scalar_spec. rewrite !N.shiftl_mul_pow2.
    change (2 ^ 18) with 262144. change (2 ^ 12) with 4096.
    change (2 ^ 6) with 64.
    destruct (N.ltb_spec (to_N b1) 0x90) as [Lg|Lg];
      apply N.eqb_neq in Hok; lia. }
  destruct (if to_N b1 <? 0x90 then to_N b0 =? 0xF0 else to_N b0 =? 0xF4) eqn:Hbad;
    [by apply IH' | by apply Hfour].
Qed.

Lemma utf8_decode_ignore_scalar s :
  Forall (fun c => scalar c = true) (utf8_decode_ignore s).
Proof. by apply (utf8_decode_ignore_scalar_bounded (length s)). Qed.

Lemma universal_newlines_bounded (n : nat) (P : N → Prop) t :
  (length t ≤ n)%nat → P 10 → Forall P t →
  Forall (fun c => P c ∧ c ≠ 13) (universal_newlines t).
Proof.
  intros Hlen H10. revert t Hlen. induction n as [|n IH]; intros t Hlen Ht.
  { destruct t; [constructor | simpl in Hlen; lia]. }
  destruct t as [|c t]; [constructor|]. simpl in Hlen.
  apply Forall_cons in Ht as [Hc Ht]. cbn [universal_newlines].
  destruct (N.eqb_spec c 13) as [->|Hne].
  - constructor; [done|]. destruct t as [|c2 t2]; [constructor|].
    apply Forall_cons in Ht as [Hc2 Ht2]. simpl in Hlen.
    destruct (c2 =? 10).
    + apply IH; [lia | done].
    + apply IH; [simpl; lia | by constructor].
  - constructor; [done|]. apply IH; [lia | done].
Qed.

Lemma scalar_is_text t : Forall (fun c => scalar c = true) t → is_text t = true.
Proof.
  induction 1 as [|c t Hc _ IH]; [done|]. cbn [is_text].
  apply scalar_spec in Hc. rewrite IH, andb_true_r.
  apply andb_true_intro. split; [apply N.ltb_lt; lia|].
  apply negb_true_iff, andb_false_intro1. unfold is_high.
  apply not_true_is_false. intros [H1 H2]%andb_prop.
  apply N.leb_le in H1, H2. lia.
Qed.

Lemma read_text_scalar s :
  Forall (fun c => scalar c = true ∧ c ≠ 13) (read_text s).
Proof.
  unfold read_text.
  apply (universal_newlines_bounded (length (utf8_decode_ignore s))
           (fun c => scalar c = true)); [done | done |].
  apply utf8_decode_ignore_scalar.
Qed.

Lemma content_read_text fs rel st text :
  content (get_file_content fs rel st) = Some text → ∃ s, text = read_text s.
Proof.
  unfold get_file_content.
  destruct (repo_path st) as [[|c root]|]; [done| |done].
  destruct (fs _) as [[data|es]|]; [|done..]. intros [= <-]. by exists data.
Qed.


(** X13: the content returned is text: every code point is a Unicode
    scalar value, so the report keeps it without loss. *)
Theorem get_file_content_is_text fs rel st text :
  content (get_file_content fs rel st) = Some text →
  Forall (fun c => scalar c = true) text ∧ is_text text = true.
Proof.
  intros [s ->]%content_read_text.
  assert (Forall (fun c => scalar c = true) (read_text s)) as H.
  { eapply Forall_impl; [apply read_text_scalar|]. by intros c [? _]. }
  split; [done | by apply scalar_is_text].
Qed.

(** X14: the content returned holds no carriage return: [\r\n] and [\r]
    are read as [\n]. *)
Theorem get_file_content_no_carriage_return fs rel st text :
  content (get_file_content fs rel st) = Some text → 13 ∉ text.
Proof.
  intros [s ->]%content_read_text Hin.
  pose proof (read_text_scalar s) as H. rewrite Forall_forall in H.
  by destruct (H _ Hin).
Qed.



End content.

(** * More on the report *)

Section report.
Implicit Types (st : State) (ra : gmap pystr details) (text p : pystr)
  (s : list pystr).

(** X17: the export writes the file exactly when it answers with a
    success, and it does so exactly when the state holds a name that is
    not empty and a mapping, and the file can be opened. *)
Theorem generate_repository_analysis_jsonl_status cwd denied st :
  (status (generate_repository_analysis_jsonl cwd denied st).1 = success
   ↔ is_Some (generate_repository_analysis_jsonl cwd denied st).2)
  ∧ (is_Some (generate_repository_analysis_jsonl cwd denied st).2
     ↔ ∃ name ra,
         repo_name st = Some name ∧ name ≠ []
         ∧ repository_analysis st = Some ra
         ∧ denied (path_join cwd (name ++ py "_analysis.jsonl")) = None).
Proof.
  unfold generate_repository_analysis_jsonl.
  destruct (repo_name st) as [[|c name]|] eqn:Hname; cbn [fst snd].
  - split; [split; [done | by intros [? ?]]|].
    split; [by intros [? ?]|]. by intros (? & ? & [= <-] & ? & _).
  - destruct (repository_analysis st) as [ra|] eqn:Hra; cbn [fst snd].
    + destruct (denied _) as [e|] eqn:Hopen; cbn [fst snd status reply].
      * split; [split; [done | by intros [? ?]]|].
        split; [by intros [? ?]|].
        intros (? & ? & [= <-] & _ & _ & Hopen'). congruence.
      * split; [split; [by eauto | done]|].
        split; [|by eauto]. intros _. by exists (c :: name), ra.
    + split; [split; [done | by intros [? ?]]|].
      split; [by intros [? ?]|]. by intros (? & ? & _ & _ & ? & _).
  - split; [split; [done | by intros [? ?]]|].
    split; [by intros [? ?]|]. by intros (? & ? & ? & _).
Qed.

Lemma jsonl_ascii ra : Forall (fun c => printable c ∨ c = 10) (jsonl ra).
Proof.
  unfold jsonl. induction (map_to_list ra) as [|[p d] es IH]; [constructor|].
  cbn [flat_map]. apply Forall_app. split; [|done].
  apply Forall_app. split; [|by repeat constructor].
  eapply Forall_impl; [apply json_dumps_printable|]. by left.
Qed.

(** X18: the file written holds printable ASCII characters and line
    feeds only, whatever the paths and statements are. *)
Theorem generate_repository_analysis_jsonl_ascii cwd denied st r text :
  generate_repository_analysis_jsonl cwd denied st = (r, Some text) →
  Forall (fun c => printable c ∨ c = 10) text.
Proof.
  unfold generate_repository_analysis_jsonl.
  destruct (repo_name st) as [[|c name]|]; [done| |done].
  destruct (repository_analysis st) as [ra|]; [|done].
  destruct (denied _); [done|]. intros [= _ <-]. apply jsonl_ascii.
Qed.

Lemma text_store_lookup ra :
  text_store ra = true ↔ ∀ p d, ra !! p = Some d → entry_text (p, d) = true.
Proof.
  unfold text_store. rewrite forallb_forall. split.
  - intros H p d Hp. apply H, list_elem_of_In. by apply elem_of_map_to_list.
  - intros H [p d] Hin. apply H. by apply elem_of_map_to_list, list_elem_of_In.
Qed.

Lemma parse_jsonl_jsonl ra : text_store ra = true → parse_jsonl (jsonl ra) = Some ra.
Proof.
  intros Htext. rewrite jsonl_unlines. by apply parse_lines_permuted.
Qed.

(** X19: statements recorded for a path come back from the report: the
    export of the state after the call, read back, holds the path with
    these statements and the flag set. *)
Theorem recorded_statements_are_exported cwd denied st name ra p s :
  repo_name st = Some name → name ≠ [] →
  denied (path_join cwd (name ++ py "_analysis.jsonl")) = None →
  repository_analysis st = Some ra → text_store ra = true →
  is_text p = true → forallb is_text s = true →
  ∃ r text ra',
    generate_repository_analysis_jsonl cwd denied (save_sql_statements p s st).1
    = (r, Some text)
    ∧ parse_jsonl text = Some ra'
    ∧ ra' !! p = Some {| sql_statements := Some s; scanned := Some true |}
    ∧ ∀ q, q ≠ p → ra' !! q = ra !! q.
Proof.
  intros Hname Hne Hopen Hra Htext Hp Hs.
  rewrite (save_sql_statements_seeded st ra) by done. cbn [fst].
  eexists _, (jsonl (recorded s p ra)), (recorded s p ra). split.
  { unfold generate_repository_analysis_jsonl. cbn [repo_name with_analysis].
    rewrite Hname. destruct name as [|c name]; [done|].
    cbn [repository_analysis]. by rewrite Hopen. }
  split; [|split].
  - apply parse_jsonl_jsonl, text_store_lookup. intros q d. unfold recorded.
    rewrite lookup_insert. case_decide as Hq.
    + intros [= <-]. subst q. unfold entry_text. cbn [fst snd sql_statements].
      by rewrite Hp, Hs.
    + by apply text_store_lookup.
  - apply lookup_insert_eq.
  - intros q Hq. by apply lookup_insert_ne.
Qed.
End report.

(** * The clone *)

Section pattern.
Implicit Types (t x rest taken : pystr) (groups g : list pystr).

Section run_facts.
Context (cls : N → bool) (group : bool)
  (k : pystr → list pystr → option (list pystr)).

Lemma run_from_sound greedy taken t groups g :
  run_from cls greedy group k taken t groups = Some g →
  ∃ x rest,
    x ≠ [] ∧ Forall (fun c => cls c = true) x ∧ t = x ++ rest
    ∧ k rest (grouped group taken x groups) = Some g.
Proof.
  revert taken. induction t as [|c t IH]; intros taken; [done|].
  cbn [run_from]. destruct (cls c) eqn:Hc; [|done].
  assert (k t (if group then groups ++ [rev (c :: taken)] else groups) = Some g →
          ∃ x rest, x ≠ [] ∧ Forall (fun c => cls c = true) x
                    ∧ c :: t = x ++ rest
                    ∧ k rest (grouped group taken x groups) = Some g) as Hhere.
  { intros Hk. exists [c], t. split; [done|]. split; [by constructor|].
    split; [done|]. unfold grouped. by destruct group. }
  assert (run_from cls greedy group k (c :: taken) t groups = Some g →
          ∃ x rest, x ≠ [] ∧ Forall (fun c => cls c = true) x
                    ∧ c :: t = x ++ rest
                    ∧ k rest (grouped group taken x groups) = Some g) as Hmore.
  { intros (x & rest & _ & Hx & -> & Hk)%IH. exists (c :: x), rest.
    split; [done|]. split; [by constructor|]. split; [done|].
    unfold grouped in *. cbn [rev] in Hk. by rewrite <- app_assoc in Hk. }
  destruct greedy.
  - destruct (run_from cls true group k (c :: taken) t groups) eqn:Hrun.
    + intros [= ->]. by apply Hmore.
    + apply Hhere.
  - destruct (k t _) eqn:Hk.
    + intros [= ->]. by apply Hhere.
    + apply Hmore.
Qed.

Lemma run_from_stops greedy taken rest groups :
  match rest with c :: _ => cls c = false | [] => True end →
  run_from cls greedy group k taken rest groups = None.
Proof. destruct rest as [|c rest]; [done|]. cbn [run_from]. by intros ->. Qed.

Lemma run_from_greedy taken x rest groups g :
  x ≠ [] → Forall (fun c => cls c = true) x →
  match rest with c :: _ => cls c = false | [] => True end →
  k rest (grouped group taken x groups) = Some g →
  run_from cls true group k taken (x ++ rest) groups = Some g.
Proof.
  intros Hne Hx Hrest. revert taken Hne.
  induction Hx as [|c x Hc Hx IH]; intros taken Hne Hk; [done|].
  cbn [app run_from]. rewrite Hc. destruct x as [|c2 x].
  - cbn [app]. rewrite run_from_stops by done.
    unfold grouped in Hk. cbn [rev]. by destruct group.
  - rewrite (IH (c :: taken)); [done | done |].
    unfold grouped in *. cbn [rev]. by rewrite <- app_assoc.
Qed.

Lemma run_from_lazy taken x rest groups g :
  x ≠ [] → Forall (fun c => cls c = true) x →
  (∀ x1 x2, x = x1 ++ x2 → x1 ≠ [] → x2 ≠ [] →
            k (x2 ++ rest) (grouped group taken x1 groups) = None) →
  k rest (grouped group taken x groups) = Some g →
  run_from cls false group k taken (x ++ rest) groups = Some g.
Proof.
  intros Hne Hx. revert taken Hne.
  induction Hx as [|c x Hc Hx IH]; intros taken Hne Hshort Hk; [done|].
  cbn [app run_from]. rewrite Hc. destruct x as [|c2 x].
  - cbn [app]. unfold grouped in Hk. cbn [rev]. by rewrite Hk.
  - pose proof (Hshort [c] (c2 :: x) eq_refl ltac:(done) ltac:(done)) as H1.
    unfold grouped in H1. cbn [rev]. rewrite H1.
    apply (IH (c :: taken)); [done | |].
    + intros x1 x2 Hsplit Hx1 Hx2.
      pose proof (Hshort (c :: x1) x2 ltac:(by rewrite Hsplit) ltac:(done) Hx2) as H2.
      unfold grouped in *. cbn [rev]. by rewrite <- app_assoc.
    + unfold grouped in *. cbn [rev]. by rewrite <- app_assoc.
Qed.
End run_facts.

Lemma expect_Some lit t t' : expect lit t = Some t' → t = lit ++ t'.
Proof.
  revert t. induction lit as [|c lit IH]; intros t; simpl; [by intros [= ->]|].
  destruct t as [|c' t]; [done|].
  destruct (N.eqb_spec c c') as [->|]; [|done]. by intros ->%IH.
Qed.

Lemma search_Some pat t g :
  search pat t = Some g → ∃ pre t', t = pre ++ t' ∧ match_here pat t' [] = Some g.
Proof.
  induction t as [|c t IH]; cbn [search].
  - destruct (match_here pat [] []) eqn:H; [|done]. intros [= ->]. by exists [], [].
  - destruct (match_here pat (c :: t) []) eqn:H.
    + intros [= ->]. by exists [], (c :: t).
    + intros (pre & t' & -> & Hm)%IH. by exists (c :: pre), t'.
Qed.

Lemma search_here pat t g : match_here pat t [] = Some g → search pat t = Some g.
Proof. intros H. destruct t; cbn [search]; by rewrite H. Qed.

Lemma at_end_spec t : at_end t = true ↔ t = [] ∨ t = [10].
Proof.
  destruct t as [|c [|c' t]]; simpl.
  - split; [by left | done].
  - rewrite N.eqb_eq. split; [intros ->; by right|].
    intros [H|H]; [done | by injection H].
  - split; [done | by intros [|]].
Qed.

Lemma match_tail_Some t groups g :
  match_here [Opt (py ".git"); End] t groups = Some g →
  g = groups ∧ t ∈ url_tails.
Proof.
  cbn [match_here].
  assert ((if at_end t then Some groups else None) = Some g →
          g = groups ∧ t ∈ url_tails) as Hplain.
  { destruct (at_end t) eqn:Hend; [|done]. intros [= <-]. split; [done|].
    apply at_end_spec in Hend as [-> | ->]; unfold url_tails;
      repeat first [by left | right]. }
  destruct (expect (py ".git") t) as [t'|] eqn:Hexp; [|apply Hplain].
  destruct (at_end t') eqn:Hend; [|apply Hplain]. intros [= <-]. split; [done|].
  apply expect_Some in Hexp as ->.
  apply at_end_spec in Hend as [-> | ->]; unfold url_tails;
      repeat first [by left | right].
Qed.

Lemma match_tail_git groups :
  match_here [Opt (py ".git"); End] (py ".git") groups = Some groups.
Proof. done. Qed.

Lemma match_tail_short x2 groups :
  x2 ≠ [] → match_here [Opt (py ".git"); End] (x2 ++ py ".git") groups = None.
Proof.
  intros Hx2. destruct (match_here _ _ _) as [g|] eqn:Hm; [|done]. exfalso.
  apply match_tail_Some in Hm as [_ Hin]. unfold url_tails in Hin.
  rewrite !elem_of_cons, elem_of_nil in Hin.
  destruct Hin as [H|[H|[H|[H|[]]]]];
    pose proof (f_equal length H) as Hlen; rewrite length_app in Hlen;
    simpl in Hlen; destruct x2 as [|c [|c' x2]]; simpl in Hlen; try lia; try done.
Qed.

Lemma match_here_ssh_url word t g :
  match_here (ssh_url_pattern word) t [] = Some g →
  ∃ host owner name tail,
    g = [owner; name]
    ∧ t = py "git@" ++ host ++ py ":" ++ owner ++ py "/" ++ name ++ tail
    ∧ tail ∈ url_tails
    ∧ Forall (fun x => x ≠ [] ∧ Forall (fun c => name_char word c = true) x)
             [host; owner; name].
Proof.
  intros Hm. unfold ssh_url_pattern in Hm. cbn [match_here] in Hm.
  destruct (expect (py "git@") t) as [t1|] eqn:H1; [|done].
  apply expect_Some in H1 as ->.
  apply run_from_sound in Hm as (host & t2 & Hhost & Fhost & -> & Hm).
  unfold grouped in Hm. cbn [match_here] in Hm.
  destruct (expect (py ":") t2) as [t3|] eqn:H3; [|done].
  apply expect_Some in H3 as ->.
  apply run_from_sound in Hm as (owner & t4 & Howner & Fowner & -> & Hm).
  unfold grouped in Hm. cbn [match_here rev app] in Hm.
  destruct (expect (py "/") t4) as [t5|] eqn:H5; [|done].
  apply expect_Some in H5 as ->.
  apply run_from_sound in Hm as (name & tail & Hname & Fname & -> & Hm).
  unfold grouped in Hm. cbn [rev app] in Hm.
  apply match_tail_Some in Hm as [-> Htail].
  exists host, owner, name, tail. split; [done|]. split; [done|].
  split; [done|]. by repeat constructor.
Qed.

(** X20: a URL that the pattern matches ends with [git@], a host, [:],
    the owner, [/], the name and at most [.git] and a line feed, where
    host, owner and name are not empty and made of [\w], [.] and [-]. *)
Theorem search_ssh_url_sound word url g :
  search (ssh_url_pattern word) url = Some g →
  ∃ pre host owner name tail,
    g = [owner; name]
    ∧ url = pre ++ py "git@" ++ host ++ py ":" ++ owner ++ py "/" ++ name ++ tail
    ∧ tail ∈ url_tails
    ∧ Forall (fun x => x ≠ [] ∧ Forall (fun c => name_char word c = true) x)
             [host; owner; name].
Proof.
  intros (pre & t & -> & Hm)%search_Some.
  apply match_here_ssh_url in Hm as (host & owner & name & tail & -> & -> & H).
  by exists pre, host, owner, name, tail.
Qed.

(** X21: the URL [git@host:owner/name.git] is matched, with the owner and
    the name as the two groups: the ending [.git] is not part of the
    name. *)
Theorem search_ssh_url_complete word host owner name :
  Forall (fun x => x ≠ [] ∧ Forall (fun c => name_char word c = true) x)
         [host; owner; name] →
  word 58 = false → word 47 = false →
  search (ssh_url_pattern word)
         (py "git@" ++ host ++ py ":" ++ owner ++ py "/" ++ name ++ py ".git")
  = Some [owner; name].
Proof.
  intros Hall Hcolon Hslash.
  apply Forall_cons in Hall as [[Hhost Fhost] Hall].
  apply Forall_cons in Hall as [[Howner Fowner] Hall].
  apply Forall_cons in Hall as [[Hname Fname] _].
  apply search_here. unfold ssh_url_pattern. cbn [match_here].
  rewrite expect_app.
  apply run_from_greedy; [done | done | |].
  { change (py ":" ++ ?r) with (58 :: r). unfold name_char. by rewrite Hcolon. }
  unfold grouped. cbn [match_here]. rewrite expect_app.
  apply run_from_greedy; [done | done | |].
  { change (py "/" ++ ?r) with (47 :: r). unfold name_char. by rewrite Hslash. }
  unfold grouped. cbn [match_here rev app]. rewrite expect_app.
  apply run_from_lazy; [done | done | |].
  - intros x1 x2 _ _ Hx2. by apply match_tail_short.
  - unfold grouped. cbn [rev app]. apply match_tail_git.
Qed.
End pattern.

Section cloning.
Implicit Types (env : environment) (st : State) (url : pystr)
  (effects : list effect).

Lemma search_ssh_url_groups env url g :
  search (ssh_url_pattern (word env)) url = Some g →
  ∃ owner name,
    g = [owner; name] ∧ name ≠ []
    ∧ Forall (fun c => name_char (word env) c = true) (owner ++ name).
Proof.
  intros (pre & t & -> & Hm)%search_Some.
  apply match_here_ssh_url in Hm as (host & owner & name & tail & -> & _ & _ & Hall).
  apply Forall_cons in Hall as [_ Hall].
  apply Forall_cons in Hall as [[_ Fowner] Hall].
  apply Forall_cons in Hall as [[Hname Fname] _].
  exists owner, name. split; [done|]. split; [done|]. by apply Forall_app.
Qed.

(** What the call returns, by the way it went. *)
Lemma clone_git_repo_cases env url st :
  (search (ssh_url_pattern (word env)) url = None
   ∧ (clone_git_repo env url st).1.1 = st
   ∧ status (clone_git_repo env url st).1.2 = failure
   ∧ (clone_git_repo env url st).2 = [])
  ∨ ∃ owner name,
      search (ssh_url_pattern (word env)) url = Some [owner; name]
      ∧ name ≠ []
      ∧ Forall (fun c => name_char (word env) c = true) (owner ++ name)
      ∧ ((∃ e, mkdtemp env (clone_prefix owner name) = inl e
               ∧ (clone_git_repo env url st).1.1 = st
               ∧ status (clone_git_repo env url st).1.2 = failure
               ∧ (clone_git_repo env url st).2
                 = [Mkdtemp (clone_prefix owner name)])
         ∨ (∃ path e, mkdtemp env (clone_prefix owner name) = inr path
                      ∧ clone_from env url path = Some e
                      ∧ (clone_git_repo env url st).1.1 = st
                      ∧ status (clone_git_repo env url st).1.2 = failure
                      ∧ (clone_git_repo env url st).2
                        = [Mkdtemp (clone_prefix owner name); CloneFrom url path]
                          ++ (if bool_decide (path ≠ []) && exists_after env path
                              then [Rmtree path] else []))
         ∨ (∃ path, mkdtemp env (clone_prefix owner name) = inr path
                    ∧ clone_from env url path = None
                    ∧ (clone_git_repo env url st).1.1
                      = {| repo_url := Some url; repo_owner := Some owner;
                           repo_name := Some name; repo_path := Some path;
                           repository_analysis := Some ∅ |}
                    ∧ status (clone_git_repo env url st).1.2 = success
                    ∧ (clone_git_repo env url st).2
                      = [Mkdtemp (clone_prefix owner name); CloneFrom url path])).
Proof.
  unfold clone_git_repo.
  destruct (search (ssh_url_pattern (word env)) url) as [g|] eqn:Hs; [|by left].
  destruct (search_ssh_url_groups env url g Hs) as (owner & name & -> & Hne & Hall).
  right. exists owner, name. split; [done|]. split; [done|]. split; [done|].
  fold (clone_prefix owner name).
  destruct (mkdtemp env (clone_prefix owner name)) as [e|path] eqn:Hmk.
  - left. by exists e.
  - right. destruct (clone_from env url path) as [e|] eqn:Hcl.
    + left. exists path, e. split; [done|]. split; [done|]. split; [done|].
      split; [done|]. cbn [snd]. f_equal. by destruct path.
    + right. by exists path.
Qed.

Ltac clone_cases env url st :=
  destruct (clone_git_repo_cases env url st)
    as [(Hs & Hst & Hr & Heff)
       |(owner & name & Hs & Hname & Hchars
         & [(e & Hmk & Hst & Hr & Heff)
           |[(path & e & Hmk & Hcl & Hst & Hr & Heff)
            |(path & Hmk & Hcl & Hst & Hr & Heff)]])].

(** X22: the clone succeeds exactly when the URL matches, the directory
    is made and the repository is cloned into it; when it fails the state
    is as it was. *)
Theorem clone_git_repo_status env url st :
  (status (clone_git_repo env url st).1.2 = success
   ↔ ∃ owner name path,
       search (ssh_url_pattern (word env)) url = Some [owner; name]
       ∧ mkdtemp env (clone_prefix owner name) = inr path
       ∧ clone_from env url path = None)
  ∧ (status (clone_git_repo env url st).1.2 = failure →
     (clone_git_repo env url st).1.1 = st).
Proof.
  clone_cases env url st; rewrite Hr, Hst.
  - split; [|done]. split; [done|]. intros (? & ? & ? & ? & _). congruence.
  - split; [|done]. split; [done|]. intros (? & ? & ? & Hs' & Hmk' & _).
    rewrite Hs in Hs'. injection Hs' as <- <-. congruence.
  - split; [|done]. split; [done|]. intros (? & ? & ? & Hs' & Hmk' & Hcl').
    rewrite Hs in Hs'. injection Hs' as <- <-. congruence.
  - split; [|done]. split; [|done]. intros _. by exists owner, name, path.
Qed.

(** X23: a clone that succeeds starts the session afresh: the state holds
    the URL, the owner, a name that is not empty, the directory, and an
    empty mapping whatever was recorded before, so that the completion
    check answers [True]. *)
Theorem clone_git_repo_fresh env url st :
  status (clone_git_repo env url st).1.2 = success →
  ∃ owner name path,
    (clone_git_repo env url st).1.1
    = {| repo_url := Some url; repo_owner := Some owner;
         repo_name := Some name; repo_path := Some path;
         repository_analysis := Some ∅ |}
    ∧ name ≠ []
    ∧ mkdtemp env (clone_prefix owner name) = inr path
    ∧ are_all_files_scanned (clone_git_repo env url st).1.1
      = answer (py "No files to scan.") true success.
Proof.
  clone_cases env url st; rewrite Hr, Hst; try done.
  intros _. by exists owner, name, path.
Qed.

(** X24: a URL that the pattern does not match is refused before
    anything is made or cloned; a directory is removed only after a clone
    into it has failed, and it is the directory made for that clone. *)
Theorem clone_git_repo_effects env url st :
  (search (ssh_url_pattern (word env)) url = None →
   (clone_git_repo env url st).2 = [])
  ∧ ∀ path, Rmtree path ∈ (clone_git_repo env url st).2 →
      status (clone_git_repo env url st).1.2 = failure
      ∧ CloneFrom url path ∈ (clone_git_repo env url st).2
      ∧ is_Some (clone_from env url path)
      ∧ exists_after env path = true.
Proof.
  clone_cases env url st; rewrite Hr, Heff.
  - split; [done|]. by intros path ?%elem_of_nil.
  - split; [congruence|]. intros p Hin.
    apply elem_of_cons in Hin as [?|?%elem_of_nil]; done.
  - split; [congruence|]. intros p Hin. cbn [app] in *.
    rewrite !elem_of_cons in Hin. destruct Hin as [?|[?|Hin]]; [done..|].
    destruct (bool_decide (path ≠ []) && exists_after env path) eqn:Hrm;
      [|by apply elem_of_nil in Hin].
    apply elem_of_cons in Hin as [[= ->]|?%elem_of_nil]; [|done].
    apply andb_prop in Hrm as [_ Hex]. split; [done|].
    split; [by right; left|]. by rewrite Hcl.
  - split; [congruence|]. intros p Hin. rewrite !elem_of_cons in Hin.
    destruct Hin as [?|[?|?%elem_of_nil]]; done.
Qed.

(** X25: when [\w] does not hold of the separator, the prefix of the
    directory made for the clone holds no separator. *)
Theorem clone_git_repo_prefix env url st prefix :
  word env SEP = false →
  Mkdtemp prefix ∈ (clone_git_repo env url st).2 →
  SEP ∉ prefix.
Proof.
  intros Hsep Hin.
  assert (∃ owner name,
            prefix = clone_prefix owner name
            ∧ Forall (fun c => name_char (word env) c = true) (owner ++ name))
    as (owner & name & -> & Hall).
  { clone_cases env url st; rewrite Heff in Hin.
    - by apply elem_of_nil in Hin.
    - apply elem_of_cons in Hin as [[= ->]|?%elem_of_nil]; [by eauto | done].
    - cbn [app] in Hin. rewrite !elem_of_cons in Hin.
      destruct Hin as [[= ->]|[?|Hin]]; [by eauto | done |].
      destruct (_ && _); [|by apply elem_of_nil in Hin].
      by apply elem_of_cons in Hin as [?|?%elem_of_nil].
    - rewrite !elem_of_cons in Hin.
      destruct Hin as [[= ->]|[?|?%elem_of_nil]]; [by eauto | done..]. }
  apply Forall_app in Hall as [Fowner Fname]. unfold clone_prefix.
  assert (∀ x, Forall (fun c => name_char (word env) c = true) x → SEP ∉ x) as Hx.
  { intros x Fx Hsepx. rewrite Forall_forall in Fx. apply Fx in Hsepx.
    unfold name_char in Hsepx. by rewrite Hsep in Hsepx. }
  rewrite !elem_of_app. intros [H|[H|[H|[H|H]]]].
  - vm_compute in H. by repeat (apply elem_of_cons in H as [H|H]; [done|]);
      apply elem_of_nil in H.
  - by apply (Hx owner).
  - by repeat (apply elem_of_cons in H as [H|H]; [done|]); apply elem_of_nil in H.
  - by apply (Hx name).
  - by repeat (apply elem_of_cons in H as [H|H]; [done|]); apply elem_of_nil in H.
Qed.



(** X27: the whole course: after a clone that succeeds and the
    enumeration of what it made, once a writer has been called for every
    path listed, the completion check answers [True]. *)
Theorem scan_workflow_completes env url st fs st2 r l ws :
  status (clone_git_repo env url st).1.2 = success →
  list_repo_files fs (clone_git_repo env url st).1.1 = Returns (st2, r) →
  files r = Some l →
  (∀ p, p ∈ l → p ∈ target <$> ws) →
  status (are_all_files_scanned (run ws st2)) = success
  ∧ all_files_scanned (are_all_files_scanned (run ws st2)) = Some true.
Proof.
  clone_cases env url st; rewrite Hr, Hst; try done.
  intros _ Hlist Hfiles Hall.
  destruct (fs path) as [[data|es]|] eqn:Hfs.
  - unfold list_repo_files in Hlist. cbn [repo_path] in Hlist.
    rewrite Hfs in Hlist. injection Hlist as <- <-. done.
  - erewrite (list_repo_files_Dir fs _ path es) in Hlist; [|reflexivity|exact Hfs].
    set (found := walk_files [] (Dir es)) in *.
    injection Hlist as <- <-. cbn [files] in Hfiles. injection Hfiles as <-.
    cbn [repository_analysis default].
    rewrite (run_seeded ws _ (seeded ∅ found)) by done.
    eapply all_scanned_answer; [reflexivity|]. apply writes_scan_all.
    intros q. rewrite lookup_seeded, lookup_empty.
    case_decide; [intros _; by apply Hall | by intros [? ?]].
  - unfold list_repo_files in Hlist. cbn [repo_path] in Hlist.
    rewrite Hfs in Hlist. injection Hlist as <- <-. done.
Qed.
End cloning.

(** * Instances *)

Lemma save_sql_statements_overwrites_witness :
  ∃ ra',
    save_sql_statements (py "x.txt") [py "SELECT 1"]
                        (session (Some (seeded ∅ [py "x.txt"; py "src/q.sql"])))
    = (with_analysis (session (Some (seeded ∅ [py "x.txt"; py "src/q.sql"]))) ra',
       reply success (py "statement saved"))
    ∧ ra' !! py "x.txt"
      = Some {| sql_statements := Some [py "SELECT 1"]; scanned := Some true |}
    ∧ size ra' = size (seeded ∅ [py "x.txt"; py "src/q.sql"])
    ∧ ∀ q, q ≠ py "x.txt" →
           ra' !! q = seeded ∅ [py "x.txt"; py "src/q.sql"] !! q.
Proof.
  apply (save_sql_statements_overwrites _ _ _ _ unscanned); reflexivity.
Defined.

Lemma writes_commute_witness :
  (call (Mark (py "b.sql"))
        (call (Save (py "a.py") [py "SELECT 1"]) (session (Some ∅))).1).1
  = (call (Save (py "a.py") [py "SELECT 1"])
          (call (Mark (py "b.sql")) (session (Some ∅))).1).1.
Proof. apply writes_commute. intros H. vm_compute in H. discriminate H. Defined.

Lemma writes_never_unscan_witness :
  ∃ ra' d',
    repository_analysis
      (run [Save (py "y.sql") []; Mark (py "x.txt")]
           (session (Some (marked (py "x.txt") ∅))))
    = Some ra'
    ∧ ra' !! py "x.txt" = Some d'
    ∧ (scanned {| sql_statements := Some []; scanned := Some true |} = Some true →
       scanned d' = Some true).
Proof. eapply writes_never_unscan; reflexivity. Defined.

Lemma all_scanned_after_writes_witness :
  status (are_all_files_scanned
            (run [Mark (py "x.txt"); Save (py "src/q.sql") [py "SELECT 1"]]
                 (session (Some (seeded ∅ [py "x.txt"; py "src/q.sql"])))))
  = success
  ∧ all_files_scanned
      (are_all_files_scanned
         (run [Mark (py "x.txt"); Save (py "src/q.sql") [py "SELECT 1"]]
              (session (Some (seeded ∅ [py "x.txt"; py "src/q.sql"])))))
    = Some true.
Proof.
  eapply all_scanned_after_writes; [reflexivity|].
  intros q. rewrite lookup_seeded, lookup_empty.
  case_decide as Hq; [intros _; exact Hq | by intros [? ?]].
Defined.



Lemma list_repo_files_resets_witness :
  ∃ ra' r,
    list_repo_files (host (Dir demo_entries) [])
                    (session (Some (marked (py "x.txt") ∅)))
    = Returns (with_analysis (session (Some (marked (py "x.txt") ∅))) ra', r)
    ∧ files r = Some (walk_files [] (Dir demo_entries))
    ∧ ∀ p, ra' !! p
           = if decide (p ∈ walk_files [] (Dir demo_entries)) then Some unscanned
             else repository_analysis (session (Some (marked (py "x.txt") ∅)))
                  ≫= (.!! p).
Proof. apply (list_repo_files_resets _ _ (py "/tmp/repo")); reflexivity. Defined.

Lemma list_repo_files_idempotent_witness :
  ∃ st' r,
    list_repo_files (host (Dir demo_entries) []) (session None) = Returns (st', r)
    ∧ list_repo_files (host (Dir demo_entries) []) st' = Returns (st', r).
Proof.
  eexists _, _. split; [reflexivity|].
  apply (list_repo_files_idempotent _ (session None)). reflexivity.
Defined.

Lemma not_all_scanned_after_enumeration_witness :
  ∃ st' r,
    list_repo_files (host (Dir demo_entries) []) (session None) = Returns (st', r)
    ∧ are_all_files_scanned st'
      = answer (py "Not all files have been scanned.") false success.
Proof.
  eexists _, _. split; [reflexivity|].
  eapply (not_all_scanned_after_enumeration (host (Dir demo_entries) [])
            (session None)); [reflexivity..|].
  intros H. vm_compute in H. discriminate H.
Defined.

Lemma get_file_content_is_text_witness :
  Forall (fun c => scalar c = true) (py "ab") ∧ is_text (py "ab") = true.
Proof.
  apply (get_file_content_is_text
           (host (Dir []) [(py "/tmp/repo/bad.bin", ["a"%byte; xff; "b"%byte])])
           (py "bad.bin") (session None)).
  reflexivity.
Defined.

Lemma get_file_content_no_carriage_return_witness :
  13 ∉ [97; 10; 98].
Proof.
  apply (get_file_content_no_carriage_return
           (host (Dir []) [(py "/tmp/repo/dos.txt",
                            ["a"%byte; x0d; x0a; "b"%byte])])
           (py "dos.txt") (session None)).
  reflexivity.
Defined.



Lemma generate_repository_analysis_jsonl_ascii_witness :
  ∃ r text,
    generate_repository_analysis_jsonl
      (py "/work") (fun _ => None)
      (session (Some (recorded [[233]] (py "a.py") ∅)))
    = (r, Some text)
    ∧ Forall (fun c => printable c ∨ c = 10) text.
Proof.
  eexists _, _. split; [reflexivity|].
  eapply (generate_repository_analysis_jsonl_ascii
            (py "/work") (fun _ => None)
            (session (Some (recorded [[233]] (py "a.py") ∅)))).
  reflexivity.
Defined.

Lemma recorded_statements_are_exported_witness :
  ∃ r text ra',
    generate_repository_analysis_jsonl
      (py "/work") (fun _ => None)
      (save_sql_statements (py "b.sql") [py "SELECT 1"]
                           (session (Some (seeded ∅ [py "a.py"])))).1
    = (r, Some text)
    ∧ parse_jsonl text = Some ra'
    ∧ ra' !! py "b.sql"
      = Some {| sql_statements := Some [py "SELECT 1"]; scanned := Some true |}
    ∧ ∀ q, q ≠ py "b.sql" → ra' !! q = seeded ∅ [py "a.py"] !! q.
Proof.
  apply (recorded_statements_are_exported _ _ _ (py "demo")); try reflexivity.
  intros H. vm_compute in H. discriminate H.
Defined.

Lemma search_ssh_url_sound_witness :
  ∃ pre host owner name tail,
    [py "owner"; py "demo"] = [owner; name]
    ∧ demo_url
      = pre ++ py "git@" ++ host ++ py ":" ++ owner ++ py "/" ++ name ++ tail
    ∧ tail ∈ url_tails
    ∧ Forall (fun x => x ≠ []
                       ∧ Forall (fun c => name_char ascii_word c = true) x)
             [host; owner; name].
Proof. apply search_ssh_url_sound. reflexivity. Defined.

Lemma search_ssh_url_complete_witness :
  search (ssh_url_pattern ascii_word)
         (py "git@" ++ py "github.com" ++ py ":" ++ py "owner" ++ py "/"
          ++ py "demo" ++ py ".git")
  = Some [py "owner"; py "demo"].
Proof.
  apply search_ssh_url_complete; [|reflexivity..].
  repeat (apply Forall_cons_2;
          [split; [intros H; vm_compute in H; discriminate H
                  |vm_compute; repeat constructor]|]).
  apply Forall_nil_2.
Defined.

Lemma clone_git_repo_fresh_witness :
  ∃ owner name path,
    (clone_git_repo demo_env demo_url
                    (session (Some (marked (py "x.txt") ∅)))).1.1
    = {| repo_url := Some demo_url; repo_owner := Some owner;
         repo_name := Some name; repo_path := Some path;
         repository_analysis := Some ∅ |}
    ∧ name ≠ []
    ∧ mkdtemp demo_env (clone_prefix owner name) = inr path
    ∧ are_all_files_scanned
        (clone_git_repo demo_env demo_url
                        (session (Some (marked (py "x.txt") ∅)))).1.1
      = answer (py "No files to scan.") true success.
Proof. apply clone_git_repo_fresh. reflexivity. Defined.

Lemma clone_git_repo_prefix_witness :
  SEP ∉ clone_prefix (py "owner") (py "demo").
Proof.
  apply (clone_git_repo_prefix demo_env demo_url (session None)); [reflexivity|].
  vm_compute. constructor.
Defined.


Lemma scan_workflow_completes_witness :
  ∃ st2 r,
    list_repo_files (host (Dir demo_entries) [])
                    (clone_git_repo demo_env demo_url (session None)).1.1
    = Returns (st2, r)
    ∧ status (are_all_files_scanned
                (run [Mark (py "x.txt"); Save (py "src/q.sql") [py "SQL"];
                      Mark (py "src/.git")] st2)) = success
    ∧ all_files_scanned
        (are_all_files_scanned
           (run [Mark (py "x.txt"); Save (py "src/q.sql") [py "SQL"];
                 Mark (py "src/.git")] st2)) = Some true.
Proof.
  eexists _, _. split; [reflexivity|].
  eapply (scan_workflow_completes demo_env demo_url (session None)
            (host (Dir demo_entries) [])); [reflexivity..|].
  intros p Hp. exact Hp.
Defined.
